(** * A shallow embedding of the scheduling simulator core (pa2.c)

    The C file implements, over the framework's intrusive lists, three
    resource acquire/release protocols (FCFS, Priority, Priority with
    inheritance) and six scheduling policies (FIFO, SJF, SRTF, Round-Robin,
    Priority, Priority + PIP).

    Modelling choices.
    - A [struct process *] is a process identifier [pid]; [NULL] is [None].
      The process objects live in a store [procs : pid -> process] that all
      queues and owners alias, so that a write through one pointer is seen
      through every other one.
    - [unsigned int] values are integers of [Z], meant in the range of the
      type; the only arithmetic the code performs on them ([lifespan - age],
      [acn++]) is written with its wrap-around modulo 2^32.
    - A [struct list_head] queue is the sequence of the processes linked on
      it, head first.  This is exact as long as a node is linked on at most
      one list, at most once, which is the invariant [NoDup (queued st)]
      below.
    - [assert] failures, dereferences of [NULL], uses of the iteration
      cursor after [list_for_each_entry] ran off the end of a list, and
      resource indexes outside the table are faults: the call produces no
      state. *)

From Stdlib Require Import ZArith List Lia Bool Permutation.
From stdpp Require Import base list.
Import ListNotations.

(** ** Data model *)

Definition pid := nat.

(** Number of resources ([resource.h]). *)
Definition NR_RESOURCES : nat := 32.

(** Wrap-around of 32-bit [unsigned int] arithmetic. *)
Definition wrap (z : Z) : Z := (z mod 2 ^ 32)%Z.

(** Modelled from the spec: [enum process_status] of the missing
    [process.h]; the spec lists READY, RUNNING, WAIT and terminated. *)
Inductive process_status : Type :=
  | PROCESS_READY
  | PROCESS_RUNNING
  | PROCESS_WAIT
  | PROCESS_EXIT.

Definition is_wait (s : process_status) : bool :=
  match s with PROCESS_WAIT => true | _ => false end.

(** Modelled from the spec: the fields of [struct process] (missing
    [process.h]) that pa2.c reads or writes.  The intrusive [list] node is
    represented by the position of the process in the queues of the state;
    [resources_to_acquire] is the list [__resources_to_acquire], of which
    pa2.c only counts the entries (they are kept as resource indexes). *)
Record process : Type := mkProcess {
  status : process_status;
  age : Z;
  lifespan : Z;
  prio : Z;
  prio_orig : Z;
  resources_to_acquire : list nat
}.

(** [struct resource] of resource.h. *)
Record resource : Type := mkResource {
  owner : option pid;
  waitqueue : list pid
}.

(** The globals of pa2.c: [current], [readyqueue], [resources], and the
    process objects reachable from them. *)
Record state : Type := mkState {
  current : option pid;
  readyqueue : list pid;
  resources : list resource;
  procs : pid -> process
}.

Inductive fault : Type :=
  | AssertionFailed
  | NullDereference
  | StrayEntry
  | OutOfRange.

Inductive outcome (A : Type) : Type :=
  | Ok (a : A) (s : state)
  | Fault (f : fault).

Arguments Ok {A} a s.
Arguments Fault {A} f.

(** ** Field updates *)

Definition set_status (s : process_status) (P : process) : process :=
  mkProcess s (age P) (lifespan P) (prio P) (prio_orig P)
            (resources_to_acquire P).

Definition set_prio (z : Z) (P : process) : process :=
  mkProcess (status P) (age P) (lifespan P) z (prio_orig P)
            (resources_to_acquire P).

Definition set_age (z : Z) (P : process) : process :=
  mkProcess (status P) z (lifespan P) (prio P) (prio_orig P)
            (resources_to_acquire P).

(** A write through the pointer [p]. *)
Definition upd_proc (p : pid) (f : process -> process)
    (h : pid -> process) : pid -> process :=
  fun q => if Nat.eqb q p then f (h q) else h q.

Definition with_current (c : option pid) (st : state) : state :=
  mkState c (readyqueue st) (resources st) (procs st).

Definition with_readyqueue (q : list pid) (st : state) : state :=
  mkState (current st) q (resources st) (procs st).

Definition with_resource (rid : nat) (r : resource) (st : state) : state :=
  mkState (current st) (readyqueue st) (<[rid := r]> (resources st))
          (procs st).

Definition with_procs (h : pid -> process) (st : state) : state :=
  mkState (current st) (readyqueue st) (resources st) h.

(** ** List primitives (list_head.h) *)

(** Modelled from the spec: [list_add_tail] of the missing [list_head.h]
    (the spec's "append to the tail"). *)
Definition list_add_tail (p : pid) (q : list pid) : list pid := q ++ [p].

(** Modelled from the spec: [list_del_init] of the missing [list_head.h],
    applied to a node found on queue [q]: the node is unlinked. *)
Fixpoint list_del_init (p : pid) (q : list pid) : list pid :=
  match q with
  | [] => []
  | x :: q' => if Nat.eqb x p then q' else x :: list_del_init p q'
  end.

(** Value of the cursor variable of a [list_for_each_entry] loop: [NULL]
    when the loop was never entered, an entry when the loop was left by
    [break], and a pointer computed from the list head itself (no process)
    when the loop ran to the end. *)
Inductive cursor : Type :=
  | Null
  | Entry (p : pid)
  | Stray.

(** [list_for_each_entry(p, q, list) if (m > key(p)) m = key(p);] *)
Definition scan_min (key : pid -> Z) (q : list pid) (m0 : Z) : Z :=
  fold_left (fun m p => if (key p <? m)%Z then key p else m) q m0.

(** [list_for_each_entry(p, q, list) if (m < key(p)) m = key(p);] *)
Definition scan_max (key : pid -> Z) (q : list pid) (m0 : Z) : Z :=
  fold_left (fun m p => if (m <? key p)%Z then key p else m) q m0.

(** [list_for_each_entry(p, q, list) if (m == key(p)) break;] *)
Fixpoint scan_eq (key : pid -> Z) (m : Z) (q : list pid) : cursor :=
  match q with
  | [] => Stray
  | p :: q' => if (key p =? m)%Z then Entry p else scan_eq key m q'
  end.

(** [list_for_each_entry(x, l, list) n++;] on an [unsigned int]. *)
Definition count_entries {A : Type} (l : list A) : Z :=
  fold_left (fun n _ => wrap (n + 1)) l 0%Z.

(** [list_del_init(&next->list); return next;] on the ready queue. *)
Definition detach (next : cursor) (st : state) : outcome (option pid) :=
  match next with
  | Null => Fault NullDereference
  | Stray => Fault StrayEntry
  | Entry n => Ok (Some n) (with_readyqueue (list_del_init n (readyqueue st)) st)
  end.

(** [return next;] *)
Definition return_cursor (next : cursor) (st : state) : outcome (option pid) :=
  match next with
  | Null => Ok None st
  | Stray => Fault StrayEntry
  | Entry n => Ok (Some n) st
  end.

(** Remaining time [lifespan - age] as the code computes it. *)
Definition remaining (P : process) : Z := wrap (lifespan P - age P).

(** ** Resource acquisition and release *)

(** [fcfs_acquire] (pa2.c, lines 65-89). *)
Definition fcfs_acquire (rid : nat) (st : state) : outcome bool :=
  match resources st !! rid with
  | None => Fault OutOfRange
  | Some r =>
    match owner r with
    | None =>
      Ok true (with_resource rid (mkResource (current st) (waitqueue r)) st)
    | Some o =>
      match current st with
      | None => Fault NullDereference
      | Some c =>
        let h := upd_proc c (set_status PROCESS_WAIT) (procs st) in
        Ok false
           (with_resource rid
              (mkResource (Some o) (list_add_tail c (waitqueue r)))
              (with_procs h st))
      end
    end
  end.

(** The tail that [fcfs_release] and [prio_release] share once a waiter
    [w] has been taken on the wait queue [wq] of resource [rid] (already
    un-owned): assert it waits, unlink it, make it READY, put it on the
    ready queue. *)
Definition wake (rid : nat) (wq : list pid) (w : pid) (st : state)
    : outcome unit :=
  if is_wait (status (procs st w)) then
    Ok tt
       (with_readyqueue (list_add_tail w (readyqueue st))
          (with_resource rid (mkResource None (list_del_init w wq))
             (with_procs (upd_proc w (set_status PROCESS_READY) (procs st))
                st)))
  else Fault AssertionFailed.

(** [fcfs_release] (pa2.c, lines 100-137). *)
Definition fcfs_release (rid : nat) (st : state) : outcome unit :=
  match resources st !! rid with
  | None => Fault OutOfRange
  | Some r =>
    if decide (owner r = current st) then
      match waitqueue r with
      | [] => Ok tt (with_resource rid (mkResource None (waitqueue r)) st)
      | waiter :: _ => wake rid (waitqueue r) waiter st
      end
    else Fault AssertionFailed
  end.

(** [prio_acquire] (pa2.c, lines 374-384). *)
Definition prio_acquire (rid : nat) (st : state) : outcome bool :=
  match resources st !! rid with
  | None => Fault OutOfRange
  | Some r =>
    match owner r with
    | None =>
      Ok true (with_resource rid (mkResource (current st) (waitqueue r)) st)
    | Some o =>
      match current st with
      | None => Fault NullDereference
      | Some c =>
        let h := upd_proc c (set_status PROCESS_WAIT) (procs st) in
        Ok false
           (with_resource rid
              (mkResource (Some o) (list_add_tail c (waitqueue r)))
              (with_procs h st))
      end
    end
  end.

(** [prio_release] (pa2.c, lines 386-417).  The two loops compute the
    maximal [prio_orig] and stop the outer [p] on the first waiter that
    has it; line 407 then declares a new [p], initialised with the first
    entry of the wait queue, and the rest of the block uses that one. *)
Definition prio_release (rid : nat) (st : state) : outcome unit :=
  match resources st !! rid with
  | None => Fault OutOfRange
  | Some r =>
    if decide (owner r = current st) then
      match waitqueue r with
      | [] => Ok tt (with_resource rid (mkResource None (waitqueue r)) st)
      | first :: _ =>
        let key p := prio_orig (procs st p) in
        let max := scan_max key (waitqueue r) (key first) in
        let p_outer := scan_eq key max (waitqueue r) in
        let p := first in
        wake rid (waitqueue r) p st
      end
    else Fault AssertionFailed
  end.

(** [pip_acquire] (pa2.c, lines 478-493). *)
Definition pip_acquire (rid : nat) (st : state) : outcome bool :=
  match resources st !! rid with
  | None => Fault OutOfRange
  | Some r =>
    match owner r with
    | None =>
      Ok true (with_resource rid (mkResource (current st) (waitqueue r)) st)
    | Some o =>
      match current st with
      | None => Fault NullDereference
      | Some c =>
        let h1 := upd_proc c (set_status PROCESS_WAIT) (procs st) in
        let h2 :=
          if (prio (h1 o) <? prio (h1 c))%Z
          then upd_proc o (set_prio (prio (h1 c))) h1
          else h1 in
        Ok false
           (with_resource rid
              (mkResource (Some o) (list_add_tail c (waitqueue r)))
              (with_procs h2 st))
      end
    end
  end.

(** [pip_release] (pa2.c, lines 495-536). *)
Definition pip_release (rid : nat) (st : state) : outcome unit :=
  match resources st !! rid with
  | None => Fault OutOfRange
  | Some r =>
    if decide (owner r = current st) then
      match owner r with
      | None => Fault NullDereference
      | Some o =>
        let h1 := upd_proc o (fun P => set_prio (prio_orig P) P) (procs st) in
        match waitqueue r with
        | [] =>
          Ok tt (with_resource rid (mkResource None (waitqueue r))
                   (with_procs h1 st))
        | first :: _ =>
          let key p := prio (h1 p) in
          let max := scan_max key (waitqueue r) (key first) in
          match scan_eq key max (waitqueue r) with
          | Null => Fault NullDereference
          | Stray => Fault StrayEntry
          | Entry p =>
            if is_wait (status (h1 p)) then
              let wq := list_del_init p (waitqueue r) in
              let acn := count_entries (resources_to_acquire (h1 p)) in
              let hon := count_entries (resources_to_acquire (h1 p)) in
              if (acn =? hon)%Z then
                Ok tt
                   (with_readyqueue (list_add_tail p (readyqueue st))
                      (with_resource rid (mkResource None wq)
                         (with_procs
                            (upd_proc p (set_status PROCESS_READY) h1) st)))
              else
                Ok tt (with_resource rid (mkResource None wq)
                         (with_procs h1 st))
            else Fault AssertionFailed
          end
        end
      end
    else Fault AssertionFailed
  end.

(** ** Scheduling policies *)

(** The initial value [100000] of [min] in [sjf_schedule] and
    [srtf_schedule]. *)
Definition sentinel : Z := 100000.

(** [fifo_schedule] (pa2.c, lines 155-200). *)
Definition fifo_schedule (st : state) : outcome (option pid) :=
  let pick_next :=
    match readyqueue st with
    | [] => Ok None st
    | next :: _ => detach (Entry next) st
    end in
  match current st with
  | None => pick_next
  | Some c =>
    if is_wait (status (procs st c)) then pick_next
    else if (age (procs st c) <? lifespan (procs st c))%Z then Ok (Some c) st
    else pick_next
  end.

(** [sjf_schedule] (pa2.c, lines 215-237). *)
Definition sjf_schedule (st : state) : outcome (option pid) :=
  let key p := lifespan (procs st p) in
  let pick_next :=
    match readyqueue st with
    | [] => Ok None st
    | _ :: _ =>
      let min := scan_min key (readyqueue st) sentinel in
      detach (scan_eq key min (readyqueue st)) st
    end in
  match current st with
  | None => pick_next
  | Some c =>
    if is_wait (status (procs st c)) then pick_next
    else if (age (procs st c) <? lifespan (procs st c))%Z then Ok (Some c) st
    else pick_next
  end.

(** [srtf_schedule] (pa2.c, lines 251-281).  Both scans run before the
    running process is looked at; [pick_next] tests the ready queue again,
    after the running process may have been appended to it. *)
Definition srtf_schedule (st : state) : outcome (option pid) :=
  let key p := remaining (procs st p) in
  let min := scan_min key (readyqueue st) sentinel in
  let next :=
    match readyqueue st with
    | [] => Null
    | _ :: _ => scan_eq key min (readyqueue st)
    end in
  let pick_next st' :=
    match readyqueue st' with
    | [] => return_cursor next st'
    | _ :: _ => detach next st'
    end in
  match current st with
  | None => pick_next st
  | Some c =>
    if is_wait (status (procs st c)) then pick_next st
    else if (age (procs st c) <? lifespan (procs st c))%Z then
      if (min <? remaining (procs st c))%Z then
        pick_next (with_readyqueue (list_add_tail c (readyqueue st)) st)
      else Ok (Some c) st
    else pick_next st
  end.

(** [rr_schedule] (pa2.c, lines 296-315). *)
Definition rr_schedule (st : state) : outcome (option pid) :=
  let pick_next st' :=
    match readyqueue st' with
    | [] => Ok None st'
    | next :: _ => detach (Entry next) st'
    end in
  match current st with
  | None => pick_next st
  | Some c =>
    if is_wait (status (procs st c))
       || (age (procs st c) =? lifespan (procs st c))%Z then pick_next st
    else
      match readyqueue st with
      | [] =>
        if (age (procs st c) <? lifespan (procs st c))%Z then Ok (Some c) st
        else pick_next st
      | _ :: _ =>
        pick_next (with_readyqueue (list_add_tail c (readyqueue st)) st)
      end
  end.

(** [prio_schedule] (pa2.c, lines 326-372). *)
Definition prio_schedule (st : state) : outcome (option pid) :=
  let key p := prio_orig (procs st p) in
  let pick_next :=
    match readyqueue st with
    | [] => Ok None st
    | temp :: _ =>
      let max := scan_max key (readyqueue st) (key temp) in
      detach (scan_eq key max (readyqueue st)) st
    end in
  match current st with
  | None => pick_next
  | Some c =>
    if is_wait (status (procs st c))
       || (age (procs st c) =? lifespan (procs st c))%Z then pick_next
    else
      match readyqueue st with
      | [] =>
        if (age (procs st c) <? lifespan (procs st c))%Z then Ok (Some c) st
        else Ok None st
      | _ :: _ =>
        let max := scan_max key (readyqueue st) (key c) in
        match scan_eq key max (readyqueue st) with
        | Entry next =>
          Ok (Some next)
             (with_readyqueue
                (list_del_init next (list_add_tail c (readyqueue st))) st)
        | _ => Ok (Some c) st
        end
      end
  end.

(** [pip_schedule] (pa2.c, lines 429-476). *)
Definition pip_schedule (st : state) : outcome (option pid) :=
  let key p := prio (procs st p) in
  let pick_next :=
    match readyqueue st with
    | [] => Ok None st
    | temp :: _ =>
      let max := scan_max key (readyqueue st) (key temp) in
      detach (scan_eq key max (readyqueue st)) st
    end in
  match current st with
  | None => pick_next
  | Some c =>
    if is_wait (status (procs st c))
       || (age (procs st c) =? lifespan (procs st c))%Z then pick_next
    else
      match readyqueue st with
      | [] =>
        if (age (procs st c) <? lifespan (procs st c))%Z then Ok (Some c) st
        else Ok None st
      | _ :: _ =>
        let max := scan_max key (readyqueue st) (key c) in
        match scan_eq key max (readyqueue st) with
        | Entry next =>
          Ok (Some next)
             (with_readyqueue
                (list_del_init next (list_add_tail c (readyqueue st))) st)
        | _ => Ok (Some c) st
        end
      end
  end.

(** ** The scheduler table *)

(** The six [struct scheduler] values of pa2.c and the callbacks each one
    installs. *)
Inductive policy : Type :=
  | FIFO | SJF | SRTF | RR | PRIO | PIP.

Definition acquire_of (pol : policy) : nat -> state -> outcome bool :=
  match pol with
  | PRIO => prio_acquire
  | PIP => pip_acquire
  | _ => fcfs_acquire
  end.

Definition release_of (pol : policy) : nat -> state -> outcome unit :=
  match pol with
  | PRIO => prio_release
  | PIP => pip_release
  | _ => fcfs_release
  end.

Definition schedule_of (pol : policy) : state -> outcome (option pid) :=
  match pol with
  | FIFO => fifo_schedule
  | SJF => sjf_schedule
  | SRTF => srtf_schedule
  | RR => rr_schedule
  | PRIO => prio_schedule
  | PIP => pip_schedule
  end.

(** One callback of the active scheduler, as the framework invokes it. *)
Inductive call : Type :=
  | Schedule
  | Acquire (rid : nat)
  | Release (rid : nat).

Inductive reply : Type :=
  | Scheduled (next : option pid)
  | Acquired (granted : bool)
  | Released.

Definition lift {A : Type} (f : A -> reply) (o : outcome A) : outcome reply :=
  match o with
  | Ok a s => Ok (f a) s
  | Fault e => Fault e
  end.

Definition run (pol : policy) (c : call) (st : state) : outcome reply :=
  match c with
  | Schedule => lift Scheduled (schedule_of pol st)
  | Acquire rid => lift Acquired (acquire_of pol rid st)
  | Release rid => lift (fun _ => Released) (release_of pol rid st)
  end.

(** ** The tick driver *)

(** Modelled from the spec: the tick driver, which is not part of pa2.c.
    Sections 4.4 and 6 of the spec say that the driver calls [schedule]
    once per tick, updates the current-process handle to the returned
    process, and advances the returned process's age by one. *)
Definition tick (pol : policy) (st : state) : outcome (option pid) :=
  match schedule_of pol st with
  | Fault e => Fault e
  | Ok None st' => Ok None (with_current None st')
  | Ok (Some p) st' =>
    Ok (Some p)
       (with_procs (upd_proc p (fun P => set_age (wrap (age P + 1)) P)
                      (procs st'))
          (with_current (Some p) st'))
  end.

(** The processes dispatched by [n] consecutive ticks, and the state they
    leave. *)
Fixpoint ticks (pol : policy) (n : nat) (st : state)
    : outcome (list (option pid)) :=
  match n with
  | O => Ok [] st
  | S n' =>
    match tick pol st with
    | Fault e => Fault e
    | Ok d st' =>
      match ticks pol n' st' with
      | Fault e => Fault e
      | Ok ds st'' => Ok (d :: ds) st''
      end
    end
  end.

(** ** Specification vocabulary *)

(** The processes blocked on the resources, in table order. *)
Definition waiting (rs : list resource) : list pid :=
  concat (waitqueue <$> rs).

(** Every process linked on some queue, ready queue first. *)
Definition queued (st : state) : list pid :=
  readyqueue st ++ waiting (resources st).

(** The caller's side of the contract: a current process that is not
    blocked is linked on no queue (the framework asserts it when it
    dispatches a process). *)
Definition runner_detached (st : state) : Prop :=
  forall c, current st = Some c ->
    status (procs st c) <> PROCESS_WAIT -> c ∉ queued st.

(** [n] is the first entry of [q] whose key is maximal over [q]. *)
Definition first_max (key : pid -> Z) (q : list pid) (n : pid) : Prop :=
  exists l1 l2, q = l1 ++ n :: l2 /\
    (forall x, x ∈ l1 -> (key x < key n)%Z) /\
    (forall x, x ∈ l2 -> (key x <= key n)%Z).

(** [n] is the first entry of [q] whose key is minimal over [q]. *)
Definition first_min (key : pid -> Z) (q : list pid) (n : pid) : Prop :=
  exists l1 l2, q = l1 ++ n :: l2 /\
    (forall x, x ∈ l1 -> (key n < key x)%Z) /\
    (forall x, x ∈ l2 -> (key n <= key x)%Z).

(** No inherited priority is below the base priority. *)
Definition prio_inv (st : state) : Prop :=
  forall p, (prio_orig (procs st p) <= prio (procs st p))%Z.

(** States reachable from [st0] by callbacks of policy [pol], interleaved
    with driver activity that leaves both priorities of every process
    alone. *)
Inductive reachable (pol : policy) (st0 : state) : state -> Prop :=
  | reach_init : reachable pol st0 st0
  | reach_call st c rep st' :
      reachable pol st0 st ->
      run pol c st = Ok rep st' ->
      reachable pol st0 st'
  | reach_driver st st' :
      reachable pol st0 st ->
      (forall p, prio (procs st' p) = prio (procs st p) /\
                 prio_orig (procs st' p) = prio_orig (procs st p)) ->
      reachable pol st0 st'.

(** The acquire operation in the words of section 4.1 of the spec: a free
    resource goes to the requester and success is reported with no further
    effect; on an owned resource the requester becomes WAIT, is appended to
    the tail of the wait queue, and failure is reported. *)
Definition acquire_by_spec (rid : nat) (st : state) : outcome bool :=
  match resources st !! rid with
  | None => Fault OutOfRange
  | Some r =>
    match owner r, current st with
    | None, requester =>
      Ok true (with_resource rid (mkResource requester (waitqueue r)) st)
    | Some _, None => Fault NullDereference
    | Some o, Some requester =>
      Ok false
         (with_resource rid
            (mkResource (Some o) (waitqueue r ++ [requester]))
            (with_procs
               (upd_proc requester (set_status PROCESS_WAIT) (procs st)) st))
    end
  end.

(** What a schedule function may do: fail, report an idle system, keep
    the running process, take a process off the ready queue, or put the
    running process at the tail of the ready queue and take another
    process off it. *)
Inductive sched_shape (st : state) : outcome (option pid) -> Prop :=
  | shape_fault e : sched_shape st (Fault e)
  | shape_idle : sched_shape st (Ok None st)
  | shape_keep c :
      current st = Some c ->
      status (procs st c) <> PROCESS_WAIT ->
      sched_shape st (Ok (Some c) st)
  | shape_pick n :
      n ∈ readyqueue st ->
      sched_shape st
        (Ok (Some n) (with_readyqueue (list_del_init n (readyqueue st)) st))
  | shape_preempt c n :
      current st = Some c ->
      status (procs st c) <> PROCESS_WAIT ->
      n ∈ readyqueue st ->
      sched_shape st
        (Ok (Some n)
            (with_readyqueue
               (list_del_init n (list_add_tail c (readyqueue st))) st)).

(** [prio_schedule] and [pip_schedule] are one function of the priority
    field they compare. *)
Definition priority_schedule (field : process -> Z) (st : state)
    : outcome (option pid) :=
  let key p := field (procs st p) in
  match current st with
  | Some c =>
    if is_wait (status (procs st c))
       || (age (procs st c) =? lifespan (procs st c))%Z
    then
      match readyqueue st with
      | [] => Ok None st
      | temp :: _ =>
        detach (scan_eq key (scan_max key (readyqueue st) (key temp))
                  (readyqueue st)) st
      end
    else
      match readyqueue st with
      | [] =>
        if (age (procs st c) <? lifespan (procs st c))%Z then Ok (Some c) st
        else Ok None st
      | _ :: _ =>
        match scan_eq key (scan_max key (readyqueue st) (key c))
                (readyqueue st) with
        | Entry next =>
          Ok (Some next)
             (with_readyqueue
                (list_del_init next (list_add_tail c (readyqueue st))) st)
        | _ => Ok (Some c) st
        end
      end
  | None =>
    match readyqueue st with
    | [] => Ok None st
    | temp :: _ =>
      detach (scan_eq key (scan_max key (readyqueue st) (key temp))
                (readyqueue st)) st
    end
  end.

(** What an acquire function may do to the queues: fail, grant a free
    resource, or block the requester at the tail of the wait queue. *)
Inductive acquire_shape (rid : nat) (st : state) : outcome bool -> Prop :=
  | acquire_fault e : acquire_shape rid st (Fault e)
  | acquire_granted r st' :
      resources st !! rid = Some r ->
      owner r = None ->
      st' = with_resource rid (mkResource (current st) (waitqueue r)) st ->
      acquire_shape rid st (Ok true st')
  | acquire_denied r o c st' :
      resources st !! rid = Some r ->
      owner r = Some o ->
      current st = Some c ->
      current st' = Some c ->
      readyqueue st' = readyqueue st ->
      resources st'
        = <[rid := mkResource (Some o) (list_add_tail c (waitqueue r))]>
            (resources st) ->
      status (procs st' c) = PROCESS_WAIT ->
      acquire_shape rid st (Ok false st').

(** What a release function may do to the queues: fail, only clear the
    owner, or also move one waiter to the tail of the ready queue. *)
Inductive release_shape (rid : nat) (st : state) : outcome unit -> Prop :=
  | release_fault e : release_shape rid st (Fault e)
  | release_plain r st' :
      resources st !! rid = Some r ->
      current st' = current st ->
      readyqueue st' = readyqueue st ->
      resources st' = <[rid := mkResource None (waitqueue r)]> (resources st) ->
      (forall q, status (procs st' q) = status (procs st q)) ->
      release_shape rid st (Ok tt st')
  | release_wake r w st' :
      resources st !! rid = Some r ->
      w ∈ waitqueue r ->
      status (procs st w) = PROCESS_WAIT ->
      current st' = current st ->
      readyqueue st' = list_add_tail w (readyqueue st) ->
      resources st'
        = <[rid := mkResource None (list_del_init w (waitqueue r))]>
            (resources st) ->
      (forall q, q <> w -> status (procs st' q) = status (procs st q)) ->
      release_shape rid st (Ok tt st').

(** The current process, if any, is not blocked. *)
Definition runner_active (st : state) : Prop :=
  forall c, current st = Some c -> status (procs st c) <> PROCESS_WAIT.

(** The preemption rule of the two priority schedulers for a running
    process [c] with remaining lifetime: either every ready process has a
    strictly lower priority and [c] is returned with the state untouched,
    or the first ready process [n] of maximal priority, whose priority is
    at least that of [c], is taken off the ready queue and returned, and
    [c] is appended to the ready queue. *)
Definition preemption_rule (sched : state -> outcome (option pid))
    (field : process -> Z) (st : state) (c : pid) : Prop :=
  let key p := field (procs st p) in
  ((forall p, p ∈ readyqueue st -> (key p < key c)%Z) /\
   sched st = Ok (Some c) st)
  \/
  (exists l1 n l2,
     readyqueue st = l1 ++ n :: l2 /\
     (key c <= key n)%Z /\
     (forall x, x ∈ l1 -> (key x < key n)%Z) /\
     (forall x, x ∈ l2 -> (key x <= key n)%Z) /\
     sched st = Ok (Some n) (with_readyqueue (l1 ++ l2 ++ [c]) st)).

(** The preemption rule of SRTF for a running process [c] with remaining
    lifetime: either no ready process has a strictly smaller remaining
    time and [c] is returned with the state untouched, or the first ready
    process [n] of minimal remaining time, which is strictly smaller than
    that of [c], is taken off the ready queue and returned, and [c] is
    appended to the ready queue. *)
Definition srtf_rule (st : state) (c : pid) : Prop :=
  let key p := remaining (procs st p) in
  ((forall p, p ∈ readyqueue st -> (key c <= key p)%Z) /\
   srtf_schedule st = Ok (Some c) st)
  \/
  (exists l1 n l2,
     readyqueue st = l1 ++ n :: l2 /\
     (key n < key c)%Z /\
     (forall x, x ∈ l1 -> (key n < key x)%Z) /\
     (forall x, x ∈ l2 -> (key n <= key x)%Z) /\
     srtf_schedule st = Ok (Some n) (with_readyqueue (l1 ++ l2 ++ [c]) st)).

(** ** Concrete scenarios *)

Definition proc (s : process_status) (a l : Z) (pr po : Z) (todo : list nat)
    : process := mkProcess s a l pr po todo.

Definition idle_process : process := proc PROCESS_EXIT 0 0 0 0 [].

(** A process store given by a table, indexed by pid. *)
Definition table (l : list process) : pid -> process :=
  fun p => nth p l idle_process.

Definition free_resources : list resource :=
  replicate NR_RESOURCES (mkResource None []).

(** A Round-Robin scene: process 0 runs, process 1 is ready, process 2
    owns resource 0 and process 3 waits for it. *)
Definition busy_procs : pid -> process :=
  table [ proc PROCESS_RUNNING 1 3 0 0 [];
          proc PROCESS_READY 0 2 0 0 [];
          proc PROCESS_READY 1 4 0 0 [];
          proc PROCESS_WAIT 0 2 0 0 [0] ].

Definition busy_state : state :=
  mkState (Some 0) [1]
          (<[0 := mkResource (Some 2) [3]]> free_resources) busy_procs.

(** The owner of resource 0 in [busy_state] is about to release it. *)
Definition releasing_state : state := with_current (Some 2) busy_state.

(** The example of section 8 of the spec: owner O (process 0, priority 1)
    holds resource 0; W (process 1, priority 5) is running and asks for
    it. *)
Definition inversion_procs : pid -> process :=
  table [ proc PROCESS_READY 1 4 1 1 [];
          proc PROCESS_RUNNING 0 2 5 5 [] ].

Definition inversion_state : state :=
  mkState (Some 1) [0]
          (<[0 := mkResource (Some 0) []]> free_resources) inversion_procs.

(** The same scene once W is blocked, O has inherited its priority and O
    is back on the processor. *)
Definition inherited_state : state :=
  mkState (Some 0) []
          (<[0 := mkResource (Some 0) [1]]> free_resources)
          (upd_proc 0 (set_prio 5)
             (upd_proc 1 (set_status PROCESS_WAIT) inversion_procs)).

(** Process 0 runs and owns resource 0; processes 1 (priority 1) and 2
    (priority 5) wait for it, in this order.  Process 1 still has
    resources 0 and 1 on its list of acquisitions to make. *)
Definition contended_procs : pid -> process :=
  table [ proc PROCESS_RUNNING 2 5 3 3 [];
          proc PROCESS_WAIT 0 2 1 1 [0; 1];
          proc PROCESS_WAIT 0 2 5 5 [0] ].

Definition contended_state : state :=
  mkState (Some 0) []
          (<[0 := mkResource (Some 0) [1; 2]]> free_resources)
          contended_procs.

(** Only process 1 waits for resource 0, with acquisitions outstanding. *)
Definition pending_state : state :=
  mkState (Some 0) []
          (<[0 := mkResource (Some 0) [1]]> free_resources)
          contended_procs.

(** Process 0 runs with remaining lifetime; process 1, of the same
    priority, is ready. *)
Definition tie_procs : pid -> process :=
  table [ proc PROCESS_RUNNING 1 3 1 1 [];
          proc PROCESS_READY 0 2 1 1 [] ].

Definition tie_state : state :=
  mkState (Some 0) [1] free_resources tie_procs.

(** Process 0 runs at priority 2; processes 1, 2 and 3 are ready with
    priorities 1, 4 and 4. *)
Definition ladder_procs : pid -> process :=
  table [ proc PROCESS_RUNNING 1 3 2 2 [];
          proc PROCESS_READY 0 2 1 1 [];
          proc PROCESS_READY 0 2 4 4 [];
          proc PROCESS_READY 0 2 4 4 [] ].

Definition ladder_state : state :=
  mkState (Some 0) [1; 2; 3] free_resources ladder_procs.

(** A single process with 100001 ticks to run is on the processor and
    nothing is ready. *)
Definition marathon_procs : pid -> process :=
  table [ proc PROCESS_RUNNING 0 100001 0 0 [];
          proc PROCESS_READY 0 100002 0 0 [] ].


(** The same process runs while a longer one is ready. *)
Definition marathon_pair_state : state :=
  mkState (Some 0) [1] free_resources marathon_procs.

(** Process 0 runs with 4 ticks left; processes 1, 2 and 3 are ready
    with 5, 2 and 2 ticks left. *)
Definition sprint_procs : pid -> process :=
  table [ proc PROCESS_RUNNING 1 5 0 0 [];
          proc PROCESS_READY 0 5 0 0 [];
          proc PROCESS_READY 1 3 0 0 [];
          proc PROCESS_READY 0 2 0 0 [] ].

Definition sprint_state : state :=
  mkState (Some 0) [1; 2; 3] free_resources sprint_procs.



(** ** Vocabulary for the remaining properties *)

(** There is no running process to keep: the processor is idle, or the
    current process is blocked or has used up its lifespan. *)
Definition no_runner (st : state) : Prop :=
  forall c, current st = Some c ->
    status (procs st c) = PROCESS_WAIT \/
    age (procs st c) = lifespan (procs st c).

(** Every process linked on a wait queue is in WAIT status. *)
Definition waiters_wait (st : state) : Prop :=
  forall i r p, resources st !! i = Some r -> p ∈ waitqueue r ->
    status (procs st p) = PROCESS_WAIT.

(** Processes 1, 2 and 3 are ready with lifespans 4, 2 and 2; nothing
    runs. *)
Definition arrivals_procs : pid -> process :=
  table [ idle_process;
          proc PROCESS_READY 0 4 1 1 [];
          proc PROCESS_READY 0 2 3 3 [];
          proc PROCESS_READY 0 2 3 3 [] ].

Definition arrivals_state : state :=
  mkState None [1; 2; 3] free_resources arrivals_procs.

(** Only jobs longer than 100000 ticks are ready. *)
Definition long_jobs_state : state :=
  mkState None [1; 0] free_resources marathon_procs.

(** [sched] takes the first process of maximal [field] off the ready
    queue and returns it. *)
Definition dispatches_first_max (sched : state -> outcome (option pid))
    (field : process -> Z) (st : state) : Prop :=
  let key p := field (procs st p) in
  exists l1 n l2,
    readyqueue st = l1 ++ n :: l2 /\
    (forall x, x ∈ l1 -> (key x < key n)%Z) /\
    (forall x, x ∈ l2 -> (key x <= key n)%Z) /\
    sched st = Ok (Some n) (with_readyqueue (l1 ++ l2) st).

(** [sched] takes the first process of minimal [field] off the ready
    queue and returns it. *)
Definition dispatches_first_min (sched : state -> outcome (option pid))
    (field : process -> Z) (st : state) : Prop :=
  let key p := field (procs st p) in
  exists l1 n l2,
    readyqueue st = l1 ++ n :: l2 /\
    (forall x, x ∈ l1 -> (key n < key x)%Z) /\
    (forall x, x ∈ l2 -> (key n <= key x)%Z) /\
    sched st = Ok (Some n) (with_readyqueue (l1 ++ l2) st).

(** Process 1 has used up its lifespan and nothing is ready. *)
Definition drained_state : state :=
  mkState (Some 1) [] free_resources
          (table [ idle_process; proc PROCESS_RUNNING 3 3 0 0 [] ]).

(** The effect of a release of resource [rid] that returns: the caller
    was the owner, the resource is left without owner, and either the wait
    queue was empty and nothing else changed, or one waiter [w] in WAIT
    status left the wait queue, became READY and was appended to the ready
    queue. *)
Definition release_effect (rid : nat) (st st' : state) : Prop :=
  exists r,
    resources st !! rid = Some r /\
    owner r = current st /\
    current st' = current st /\
    ((waitqueue r = [] /\
      readyqueue st' = readyqueue st /\
      resources st' = <[rid := mkResource None []]> (resources st) /\
      forall q, status (procs st' q) = status (procs st q))
     \/
     (exists w,
        w ∈ waitqueue r /\
        status (procs st w) = PROCESS_WAIT /\
        status (procs st' w) = PROCESS_READY /\
        readyqueue st' = readyqueue st ++ [w] /\
        resources st'
        = <[rid := mkResource None (list_del_init w (waitqueue r))]>
            (resources st) /\
        forall q, q <> w -> status (procs st' q) = status (procs st q))).

(** The effect of an acquire of resource [rid] that returns [b]: the
    resource is granted exactly when it was free; a grant records the
    current process as owner and changes nothing else; a denial keeps the
    owner, puts the current process in WAIT status and appends it to the
    wait queue.  Neither touches the ready queue, the current-process
    pointer or another resource. *)
Definition acquire_effect (rid : nat) (st : state) (b : bool) (st' : state)
    : Prop :=
  exists r,
    resources st !! rid = Some r /\
    (b = true <-> owner r = None) /\
    readyqueue st' = readyqueue st /\
    current st' = current st /\
    (forall j, j <> rid -> resources st' !! j = resources st !! j) /\
    (b = true ->
       procs st' = procs st /\
       resources st' !! rid = Some (mkResource (current st) (waitqueue r))) /\
    (b = false ->
       exists c, current st = Some c /\
         resources st' !! rid
         = Some (mkResource (owner r) (waitqueue r ++ [c])) /\
         status (procs st' c) = PROCESS_WAIT /\
         forall q, q <> c -> status (procs st' q) = status (procs st q)).

(** Process 0 runs; resource 0 is free and nobody waits for it. *)
Definition calm_state : state :=
  mkState (Some 0) [1] free_resources
          (table [ proc PROCESS_RUNNING 1 3 7 2 [];
                   proc PROCESS_READY 0 2 1 1 [] ]).

(** What acquire followed by release leaves of the process store: the
    inheritance protocol resets the caller's priority to its base
    priority, the other protocols write nothing. *)
Definition after_round_trip (pol : policy) (c : pid) (h : pid -> process)
    : pid -> process :=
  match pol with
  | PIP => upd_proc c (fun P => set_prio (prio_orig P) P) h
  | _ => h
  end.

(** A process that can run for one tick and still not be finished: it is
    not blocked and has at least two ticks left, within the range of
    [unsigned int]. *)
Definition can_rotate (st : state) (p : pid) : Prop :=
  status (procs st p) <> PROCESS_WAIT /\
  (0 <= age (procs st p))%Z /\
  (age (procs st p) + 1 < lifespan (procs st p))%Z /\
  (lifespan (procs st p) < 2 ^ 32)%Z.

(** Process 0 runs, processes 1 and 2 are ready; each has at least two
    ticks left. *)
Definition carousel_state : state :=
  mkState (Some 0) [1; 2] free_resources
          (table [ proc PROCESS_RUNNING 1 4 0 0 [];
                   proc PROCESS_READY 0 3 0 0 [];
                   proc PROCESS_READY 0 2 0 0 [] ]).

(** The state the driver of the spec leaves when it has dispatched
    process [p] without relinking any queue. *)
Definition aged (p : pid) (st : state) : state :=
  with_procs (upd_proc p (fun P => set_age (wrap (age P + 1)) P) (procs st))
    (with_current (Some p) st).

(** Process 0 runs at priority 6 with four ticks left; processes 1 and 2
    are ready at priorities 1 and 4 with two ticks left each. *)
Definition summit_state : state :=
  mkState (Some 0) [1; 2] free_resources
          (table [ proc PROCESS_RUNNING 1 5 6 6 [];
                   proc PROCESS_READY 0 2 1 1 [];
                   proc PROCESS_READY 0 2 4 4 [] ]).

(** Process 0 runs with two ticks left; processes 1 and 2 are ready with
    two and five ticks left. *)
Definition homestretch_state : state :=
  mkState (Some 0) [1; 2] free_resources
          (table [ proc PROCESS_RUNNING 3 5 0 0 [];
                   proc PROCESS_READY 0 2 0 0 [];
                   proc PROCESS_READY 0 5 0 0 [] ]).

(** Priority inversion in the making: W (process 2, priority 5) runs and
    is about to ask for resource 0, held by O (process 0, priority 1),
    which is ready behind M (process 1, priority 3). *)
Definition inversion_ready_state : state :=
  mkState (Some 2) [1; 0]
          (<[0 := mkResource (Some 0) []]> free_resources)
          (table [ proc PROCESS_READY 1 4 1 1 [];
                   proc PROCESS_READY 0 3 3 3 [];
                   proc PROCESS_RUNNING 0 2 5 5 [] ]).



(** * Properties *)

(** ** The scans *)

Section Scans.
Variable key : pid -> Z.

Lemma scan_max_cons p q m0 :
  scan_max key (p :: q) m0
  = scan_max key q (if (m0 <? key p)%Z then key p else m0).
Proof. reflexivity. Qed.

Lemma scan_min_cons p q m0 :
  scan_min key (p :: q) m0
  = scan_min key q (if (key p <? m0)%Z then key p else m0).
Proof. reflexivity. Qed.

Lemma scan_max_init q m0 : (m0 <= scan_max key q m0)%Z.
Proof.
  revert m0. induction q as [|p q IH]; intros m0.
  - cbn. lia.
  - rewrite scan_max_cons. specialize (IH (if (m0 <? key p)%Z then key p else m0)).
    destruct (Z.ltb_spec m0 (key p)); lia.
Qed.

Lemma scan_max_upper q m0 x : x ∈ q -> (key x <= scan_max key q m0)%Z.
Proof.
  revert m0. induction q as [|p q IH]; intros m0 Hx.
  - inversion Hx.
  - rewrite scan_max_cons. apply elem_of_cons in Hx as [->|Hx].
    + pose proof (scan_max_init q (if (m0 <? key p)%Z then key p else m0)).
      destruct (Z.ltb_spec m0 (key p)); lia.
    + now apply IH.
Qed.

Lemma scan_max_attained q m0 :
  scan_max key q m0 = m0 \/ exists x, x ∈ q /\ key x = scan_max key q m0.
Proof.
  revert m0. induction q as [|p q IH]; intros m0.
  - now left.
  - rewrite scan_max_cons.
    destruct (IH (if (m0 <? key p)%Z then key p else m0)) as [E|(x & Hx & E)].
    + rewrite E. destruct (Z.ltb_spec m0 (key p)).
      * right. exists p. split; [apply list_elem_of_here | reflexivity].
      * now left.
    + right. exists x. split; [now apply list_elem_of_further | exact E].
Qed.

Lemma scan_min_init q m0 : (scan_min key q m0 <= m0)%Z.
Proof.
  revert m0. induction q as [|p q IH]; intros m0.
  - cbn. lia.
  - rewrite scan_min_cons. specialize (IH (if (key p <? m0)%Z then key p else m0)).
    destruct (Z.ltb_spec (key p) m0); lia.
Qed.

Lemma scan_min_lower q m0 x : x ∈ q -> (scan_min key q m0 <= key x)%Z.
Proof.
  revert m0. induction q as [|p q IH]; intros m0 Hx.
  - inversion Hx.
  - rewrite scan_min_cons. apply elem_of_cons in Hx as [->|Hx].
    + pose proof (scan_min_init q (if (key p <? m0)%Z then key p else m0)).
      destruct (Z.ltb_spec (key p) m0); lia.
    + now apply IH.
Qed.

Lemma scan_min_attained q m0 :
  scan_min key q m0 = m0 \/ exists x, x ∈ q /\ key x = scan_min key q m0.
Proof.
  revert m0. induction q as [|p q IH]; intros m0.
  - now left.
  - rewrite scan_min_cons.
    destruct (IH (if (key p <? m0)%Z then key p else m0)) as [E|(x & Hx & E)].
    + rewrite E. destruct (Z.ltb_spec (key p) m0).
      * right. exists p. split; [apply list_elem_of_here | reflexivity].
      * now left.
    + right. exists x. split; [now apply list_elem_of_further | exact E].
Qed.

(** The second loop stops on the first entry whose key is [m]. *)
Lemma scan_eq_entry m q n :
  scan_eq key m q = Entry n <->
  exists l1 l2, q = l1 ++ n :: l2 /\ key n = m /\
                forall x, x ∈ l1 -> key x <> m.
Proof.
  induction q as [|p q IH]; cbn.
  - split; [discriminate|]. intros (l1 & l2 & E & _). now destruct l1.
  - destruct (Z.eqb_spec (key p) m) as [Hp|Hp].
    + split.
      * intros [= <-]. exists [], q. repeat split; [exact Hp|].
        intros x Hx. inversion Hx.
      * intros (l1 & l2 & E & Hn & Hl1). destruct l1 as [|y l1].
        -- cbn in E. now injection E as -> _.
        -- cbn in E. injection E as -> _. exfalso.
           apply (Hl1 y); [apply list_elem_of_here | exact Hp].
    + rewrite IH. split.
      * intros (l1 & l2 & -> & Hn & Hl1). exists (p :: l1), l2.
        repeat split; [exact Hn|]. intros x Hx.
        apply elem_of_cons in Hx as [->|Hx]; [exact Hp | now apply Hl1].
      * intros (l1 & l2 & E & Hn & Hl1). destruct l1 as [|y l1].
        -- cbn in E. injection E as -> _. contradiction.
        -- cbn in E. injection E as -> ->. exists l1, l2.
           repeat split; [exact Hn|]. intros x Hx. apply Hl1.
           now apply list_elem_of_further.
Qed.

Lemma scan_eq_stray m q :
  scan_eq key m q = Stray <-> forall x, x ∈ q -> key x <> m.
Proof.
  induction q as [|p q IH]; cbn.
  - split; [|reflexivity]. intros _ x Hx. inversion Hx.
  - destruct (Z.eqb_spec (key p) m) as [Hp|Hp].
    + split; [discriminate|]. intros H. exfalso.
      apply (H p); [apply list_elem_of_here | exact Hp].
    + rewrite IH. split.
      * intros H x Hx. apply elem_of_cons in Hx as [->|Hx]; [exact Hp|now apply H].
      * intros H x Hx. apply H. now apply list_elem_of_further.
Qed.

Lemma scan_eq_not_null m q : scan_eq key m q <> Null.
Proof.
  induction q as [|p q IH]; cbn; [discriminate|].
  destruct (key p =? m)%Z; [discriminate | exact IH].
Qed.

Lemma scan_eq_cases m q :
  (exists n, scan_eq key m q = Entry n) \/ scan_eq key m q = Stray.
Proof.
  destruct (scan_eq key m q) eqn:E; [|left; eauto|now right].
  now apply scan_eq_not_null in E.
Qed.

(** Scanning for the maximum and then for its first occurrence yields
    the first maximal entry, whenever the maximum is attained on the
    queue. *)
Lemma scan_max_first q m0 n :
  scan_eq key (scan_max key q m0) q = Entry n -> first_max key q n.
Proof.
  intros (l1 & l2 & E & Hn & Hl1)%scan_eq_entry.
  exists l1, l2. split; [exact E|]. split.
  - intros x Hx.
    assert (key x <= scan_max key q m0)%Z as Hle.
    { apply scan_max_upper. rewrite E. apply elem_of_app. now left. }
    specialize (Hl1 x Hx). lia.
  - intros x Hx. rewrite Hn. apply scan_max_upper. rewrite E.
    apply elem_of_app. right. now apply list_elem_of_further.
Qed.

Lemma scan_min_first q m0 n :
  scan_eq key (scan_min key q m0) q = Entry n -> first_min key q n.
Proof.
  intros (l1 & l2 & E & Hn & Hl1)%scan_eq_entry.
  exists l1, l2. split; [exact E|]. split.
  - intros x Hx.
    assert (scan_min key q m0 <= key x)%Z as Hle.
    { apply scan_min_lower. rewrite E. apply elem_of_app. now left. }
    specialize (Hl1 x Hx). lia.
  - intros x Hx. rewrite Hn. apply scan_min_lower. rewrite E.
    apply elem_of_app. right. now apply list_elem_of_further.
Qed.

Lemma first_max_unique q n n' :
  first_max key q n -> first_max key q n' -> n = n'.
Proof.
  intros (l1 & l2 & E & Hlt & Hle) (k1 & k2 & E' & Hlt' & Hle').
  assert (n ∈ k1 ++ n' :: k2) as Hn
    by (rewrite <- E', E; apply elem_of_app; right; apply list_elem_of_here).
  assert (n' ∈ l1 ++ n :: l2) as Hn'
    by (rewrite <- E, E'; apply elem_of_app; right; apply list_elem_of_here).
  assert (key n = key n') as Hk.
  { apply elem_of_app in Hn as [Hn|Hn]; [specialize (Hlt' _ Hn)|];
      (apply elem_of_app in Hn' as [Hn'|Hn']; [specialize (Hlt _ Hn')|]);
      rewrite ?elem_of_cons in *;
      repeat match goal with
             | H : _ \/ _ |- _ => destruct H as [H|H]; [subst; try reflexivity|]
             | H : _ ∈ l2 |- _ => apply Hle in H
             | H : _ ∈ k2 |- _ => apply Hle' in H
             end; try lia. }
  rewrite E in E'. clear E Hn Hn'.
  revert k1 E' Hlt'. induction l1 as [|a l1 IH]; intros [|b k1] E' Hlt'; cbn in E'.
  - now injection E'.
  - injection E' as Hb _. subst b.
    specialize (Hlt' n (list_elem_of_here _ _)). lia.
  - injection E' as Ha _. subst a.
    specialize (Hlt n' (list_elem_of_here _ _)). lia.
  - injection E' as Ha E'. subst b. apply (IH (fun x Hx => Hlt x (list_elem_of_further _ _ _ Hx)) k1 E').
    intros x Hx. apply Hlt'. now apply list_elem_of_further.
Qed.
End Scans.

(** ** Unlinking and the set of queued processes *)

Lemma list_del_init_head n q : list_del_init n (n :: q) = q.
Proof. cbn. now rewrite Nat.eqb_refl. Qed.

Lemma list_del_init_middle n l1 l2 :
  n ∉ l1 -> list_del_init n (l1 ++ n :: l2) = l1 ++ l2.
Proof.
  induction l1 as [|x l1 IH]; intros Hn.
  - apply list_del_init_head.
  - cbn. apply not_elem_of_cons in Hn as [Hx Hn].
    destruct (Nat.eqb_spec x n) as [->|_]; [contradiction|].
    now rewrite IH.
Qed.

Lemma list_del_init_perm n q : n ∈ q -> q ≡ₚ n :: list_del_init n q.
Proof.
  induction q as [|x q IH]; intros Hn.
  - inversion Hn.
  - cbn. destruct (Nat.eqb_spec x n) as [->|Hx]; [reflexivity|].
    apply elem_of_cons in Hn as [->|Hn]; [contradiction|].
    rewrite (IH Hn) at 1. apply perm_swap.
Qed.

Lemma list_del_init_absent n q : n ∉ q -> list_del_init n q = q.
Proof.
  induction q as [|x q IH]; intros Hn; [reflexivity|].
  cbn. apply not_elem_of_cons in Hn as [Hx Hn].
  destruct (Nat.eqb_spec x n) as [->|_]; [contradiction|].
  now rewrite IH.
Qed.

Lemma first_max_elem key q n : first_max key q n -> n ∈ q.
Proof.
  intros (l1 & l2 & -> & _). apply elem_of_app. right. apply list_elem_of_here.
Qed.

Lemma first_min_elem key q n : first_min key q n -> n ∈ q.
Proof.
  intros (l1 & l2 & -> & _). apply elem_of_app. right. apply list_elem_of_here.
Qed.

Lemma scan_eq_elem key m q n : scan_eq key m q = Entry n -> n ∈ q.
Proof.
  intros (l1 & l2 & -> & _)%scan_eq_entry.
  apply elem_of_app. right. apply list_elem_of_here.
Qed.

(** Replacing the resource at [i] exchanges its wait queue for the new one
    inside the collection of all waiting processes. *)
Lemma waiting_insert rs i r :
  rs !! i = Some r ->
  exists rest,
    waiting rs ≡ₚ waitqueue r ++ rest /\
    forall r', waiting (<[i := r']> rs) ≡ₚ waitqueue r' ++ rest.
Proof.
  revert i. induction rs as [|a rs IH]; intros [|i] Hi; try discriminate.
  - injection Hi as ->. exists (waiting rs). split; [reflexivity|].
    intros r'. reflexivity.
  - destruct (IH i Hi) as (rest & H1 & H2). exists (waitqueue a ++ rest).
    unfold waiting in *. cbn. split.
    + rewrite H1. rewrite !app_assoc. apply Permutation_app_tail, Permutation_app_comm.
    + intros r'. rewrite H2. rewrite !app_assoc.
      apply Permutation_app_tail, Permutation_app_comm.
Qed.

Lemma waiting_lookup rs i r p :
  rs !! i = Some r -> p ∈ waitqueue r -> p ∈ waiting rs.
Proof.
  intros Hi Hp. destruct (waiting_insert rs i r Hi) as (rest & H1 & _).
  rewrite H1. apply elem_of_app. now left.
Qed.

(** What the exclusive-membership invariant says queue by queue. *)
Lemma queued_NoDup_unfold st :
  NoDup (queued st) ->
  NoDup (readyqueue st) /\
  (forall i r, resources st !! i = Some r ->
     NoDup (waitqueue r) /\
     forall p, p ∈ waitqueue r -> p ∉ readyqueue st) /\
  (forall i j r1 r2, i <> j ->
     resources st !! i = Some r1 -> resources st !! j = Some r2 ->
     forall p, p ∈ waitqueue r1 -> p ∉ waitqueue r2).
Proof.
  unfold queued. intros (Hrq & Hdisj & Hw)%NoDup_app. split; [exact Hrq|]. split.
  - intros i r Hi. destruct (waiting_insert _ i r Hi) as (rest & H1 & _).
    rewrite H1 in Hw. apply NoDup_app in Hw as (Hr & _ & _). split; [exact Hr|].
    intros p Hp Hin. apply (Hdisj p Hin). rewrite H1. apply elem_of_app. now left.
  - intros i j r1 r2 Hij Hi Hj p Hp1 Hp2.
    destruct (waiting_insert _ i r1 Hi) as (rest & H1 & H2).
    specialize (H2 (mkResource None [])). cbn in H2.
    rewrite H1 in Hw. apply NoDup_app in Hw as (_ & Hd & _).
    apply (Hd p Hp1). rewrite <- H2.
    apply (waiting_lookup _ j r2); [|exact Hp2].
    rewrite list_lookup_insert_ne; [exact Hj | exact Hij].
Qed.

(** ** The shape of every callback's effect on the queues *)

Lemma is_wait_true s : is_wait s = true <-> s = PROCESS_WAIT.
Proof. destruct s; cbn; split; congruence. Qed.

Lemma is_wait_false s : is_wait s = false <-> s <> PROCESS_WAIT.
Proof. destruct s; cbn; split; congruence. Qed.

(** A write that keeps a field is invisible through that field. *)
Lemma upd_proc_field {A : Type} (fld : process -> A) p f h q :
  (forall P, fld (f P) = fld P) ->
  fld (upd_proc p f h q) = fld (h q).
Proof. intros Hf. unfold upd_proc. destruct (q =? p); [apply Hf | reflexivity]. Qed.

Lemma upd_proc_same p f h : upd_proc p f h p = f (h p).
Proof. unfold upd_proc. now rewrite Nat.eqb_refl. Qed.

Lemma upd_proc_other p f h q : q <> p -> upd_proc p f h q = h q.
Proof. unfold upd_proc. now intros ->%Nat.eqb_neq. Qed.

Lemma count_entries_self {A : Type} (l : list A) :
  (count_entries l =? count_entries l)%Z = true.
Proof. apply Z.eqb_refl. Qed.

Ltac shape_split :=
  repeat match goal with
    | |- sched_shape _ (match current ?st with _ => _ end) =>
        let E := fresh "Ecur" in destruct (current st) eqn:E
    | |- sched_shape _ (if is_wait ?s then _ else _) =>
        let E := fresh "Ewait" in destruct (is_wait s) eqn:E
    | |- sched_shape _ (if is_wait ?s || ?b then _ else _) =>
        let E := fresh "Ewait" in destruct (is_wait s) eqn:E; cbn [orb]
    | |- sched_shape _ (match readyqueue ?st with _ => _ end) =>
        let E := fresh "Erq" in destruct (readyqueue st) eqn:E
    | |- sched_shape _ (if ?b then _ else _) =>
        lazymatch type of b with bool => destruct b end
    end.

Ltac shape_close :=
  first
    [ apply shape_fault
    | apply shape_idle
    | eapply shape_keep; [eassumption | now apply is_wait_false]
    | match goal with
      | E : readyqueue ?st = ?n :: ?q |- sched_shape ?st (detach (Entry ?n) ?st) =>
          unfold detach; apply shape_pick; rewrite E; apply list_elem_of_here
      end ].

Lemma detach_scan_shape st key m :
  sched_shape st (detach (scan_eq key m (readyqueue st)) st).
Proof.
  destruct (scan_eq key m (readyqueue st)) as [|n|] eqn:E;
    [apply shape_fault | | apply shape_fault].
  apply shape_pick. eapply scan_eq_elem, E.
Qed.

Lemma fifo_schedule_shape st : sched_shape st (fifo_schedule st).
Proof. unfold fifo_schedule. shape_split; shape_close. Qed.

Lemma sjf_schedule_shape st : sched_shape st (sjf_schedule st).
Proof.
  unfold sjf_schedule. shape_split; try shape_close;
    match goal with E : readyqueue _ = _ |- _ => rewrite <- E end;
    apply detach_scan_shape.
Qed.

Lemma srtf_schedule_shape st : sched_shape st (srtf_schedule st).
Proof.
  unfold srtf_schedule.
  destruct (readyqueue st) as [|a q] eqn:Erq.
  - (* empty ready queue: the cursor is NULL *)
    destruct (current st) as [c|] eqn:Ecur; [|apply shape_idle].
    destruct (is_wait (status (procs st c))) eqn:Ewait; [apply shape_idle|].
    destruct (age (procs st c) <? lifespan (procs st c))%Z; [|apply shape_idle].
    destruct (_ <? remaining (procs st c))%Z.
    + apply shape_fault.
    + eapply shape_keep; [eassumption | now apply is_wait_false].
  - rewrite <- Erq.
    set (next := scan_eq _ _ (readyqueue st)).
    assert (sched_shape st (detach next st)) as Hpick
      by apply detach_scan_shape.
    destruct (current st) as [c|] eqn:Ecur; [|exact Hpick].
    destruct (is_wait (status (procs st c))) eqn:Ewait; [exact Hpick|].
    destruct (age (procs st c) <? lifespan (procs st c))%Z; [|exact Hpick].
    destruct (_ <? remaining (procs st c))%Z.
    2: { eapply shape_keep; [eassumption | now apply is_wait_false]. }
    cbn [readyqueue with_readyqueue]. rewrite Erq at 1. cbn [list_add_tail app].
    destruct next as [|n|] eqn:E; [apply shape_fault | | apply shape_fault].
    unfold detach. cbn [readyqueue with_readyqueue].
    apply (shape_preempt st c n Ecur); [now apply is_wait_false|].
    eapply scan_eq_elem, E.
Qed.

Lemma rr_schedule_shape st : sched_shape st (rr_schedule st).
Proof.
  unfold rr_schedule.
  destruct (current st) as [c|] eqn:Ecur.
  2: { destruct (readyqueue st) eqn:Erq; [apply shape_idle|].
       apply shape_pick. rewrite Erq. apply list_elem_of_here. }
  destruct (is_wait (status (procs st c))) eqn:Ewait; cbn [orb].
  { destruct (readyqueue st) eqn:Erq; [apply shape_idle|].
    apply shape_pick. rewrite Erq. apply list_elem_of_here. }
  destruct (age (procs st c) =? lifespan (procs st c))%Z.
  { destruct (readyqueue st) eqn:Erq; [apply shape_idle|].
    apply shape_pick. rewrite Erq. apply list_elem_of_here. }
  destruct (readyqueue st) as [|a q] eqn:Erq.
  - destruct (age (procs st c) <? lifespan (procs st c))%Z.
    + eapply shape_keep; [eassumption | now apply is_wait_false].
    + apply shape_idle.
  - cbn [readyqueue with_readyqueue list_add_tail app detach].
    change (a :: q ++ [c]) with (list_add_tail c (a :: q)). rewrite <- Erq.
    apply (shape_preempt st c a Ecur); [now apply is_wait_false|].
    rewrite Erq. apply list_elem_of_here.
Qed.

Lemma prio_schedule_unfold st :
  prio_schedule st = priority_schedule prio_orig st.
Proof. reflexivity. Qed.

Lemma pip_schedule_unfold st :
  pip_schedule st = priority_schedule prio st.
Proof. reflexivity. Qed.

Lemma priority_schedule_shape field st :
  sched_shape st (priority_schedule field st).
Proof.
  unfold priority_schedule.
  destruct (current st) as [c|] eqn:Ecur.
  2: { destruct (readyqueue st) eqn:Erq; [apply shape_idle|].
       rewrite <- Erq. apply detach_scan_shape. }
  destruct (is_wait (status (procs st c)) || _) eqn:Eguard.
  { destruct (readyqueue st) eqn:Erq; [apply shape_idle|].
    rewrite <- Erq. apply detach_scan_shape. }
  apply orb_false_iff in Eguard as [Ewait _].
  destruct (readyqueue st) as [|a q] eqn:Erq.
  - destruct (_ <? _)%Z; [|apply shape_idle].
    eapply shape_keep; [eassumption | now apply is_wait_false].
  - rewrite <- Erq.
    destruct (scan_eq _ _ (readyqueue st)) as [|n|] eqn:E.
    + eapply shape_keep; [eassumption | now apply is_wait_false].
    + apply (shape_preempt st c n Ecur); [now apply is_wait_false|].
      eapply scan_eq_elem, E.
    + eapply shape_keep; [eassumption | now apply is_wait_false].
Qed.

Lemma schedule_of_shape pol st : sched_shape st (schedule_of pol st).
Proof.
  destruct pol; cbn [schedule_of].
  - apply fifo_schedule_shape.
  - apply sjf_schedule_shape.
  - apply srtf_schedule_shape.
  - apply rr_schedule_shape.
  - rewrite prio_schedule_unfold. apply priority_schedule_shape.
  - rewrite pip_schedule_unfold. apply priority_schedule_shape.
Qed.

(** Queue membership after a schedule call. *)
Lemma sched_shape_membership st ret st' :
  NoDup (queued st) -> runner_detached st ->
  sched_shape st (Ok ret st') ->
  NoDup (queued st') /\ forall p, ret = Some p -> p ∉ queued st'.
Proof.
  intros Hnd Hrun Hshape. inversion Hshape; subst.
  - split; [exact Hnd | discriminate].
  - split; [exact Hnd|]. intros p [= <-]. now apply Hrun.
  - assert (n :: queued (with_readyqueue (list_del_init n (readyqueue st)) st)
            ≡ₚ queued st) as Hperm.
    { unfold queued. cbn. change (?x :: ?l ++ ?k) with ((x :: l) ++ k).
      now rewrite <- list_del_init_perm. }
    rewrite <- Hperm in Hnd. apply NoDup_cons in Hnd as [Hn Hnd].
    split; [exact Hnd|]. now intros p [= <-].
  - assert (n :: queued (with_readyqueue
                           (list_del_init n (list_add_tail c (readyqueue st))) st)
            ≡ₚ c :: queued st) as Hperm.
    { unfold queued. cbn. change (?x :: ?l ++ ?k) with ((x :: l) ++ k).
      rewrite <- list_del_init_perm.
      - unfold list_add_tail. rewrite <- app_assoc. cbn.
        rewrite Permutation_middle. reflexivity.
      - apply elem_of_app. now left. }
    assert (NoDup (c :: queued st)) as Hnd'
      by (apply NoDup_cons; split; [now apply Hrun | exact Hnd]).
    rewrite <- Hperm in Hnd'. apply NoDup_cons in Hnd' as [Hn Hnd'].
    split; [exact Hnd'|]. now intros p [= <-].
Qed.

Lemma fcfs_acquire_shape rid st : acquire_shape rid st (fcfs_acquire rid st).
Proof.
  unfold fcfs_acquire.
  destruct (resources st !! rid) as [r|] eqn:Hr; [|apply acquire_fault].
  destruct (owner r) as [o|] eqn:Ho.
  - destruct (current st) as [c|] eqn:Hc; [|apply acquire_fault].
    eapply (acquire_denied rid st r o c); eauto.
    cbn. now rewrite upd_proc_same.
  - eapply acquire_granted; eauto.
Qed.

Lemma prio_acquire_fcfs rid st : prio_acquire rid st = fcfs_acquire rid st.
Proof. reflexivity. Qed.

Lemma pip_acquire_shape rid st : acquire_shape rid st (pip_acquire rid st).
Proof.
  unfold pip_acquire.
  destruct (resources st !! rid) as [r|] eqn:Hr; [|apply acquire_fault].
  destruct (owner r) as [o|] eqn:Ho.
  - destruct (current st) as [c|] eqn:Hc; [|apply acquire_fault].
    eapply (acquire_denied rid st r o c); eauto.
    cbn. destruct (_ <? _)%Z.
    + rewrite (upd_proc_field status) by reflexivity. now rewrite upd_proc_same.
    + now rewrite upd_proc_same.
  - eapply acquire_granted; eauto.
Qed.

Lemma acquire_of_shape pol rid st : acquire_shape rid st (acquire_of pol rid st).
Proof.
  destruct pol; cbn [acquire_of]; rewrite ?prio_acquire_fcfs;
    first [apply fcfs_acquire_shape | apply pip_acquire_shape].
Qed.

Lemma wake_shape rid st r w :
  resources st !! rid = Some r -> w ∈ waitqueue r ->
  release_shape rid st (wake rid (waitqueue r) w st).
Proof.
  intros Hr Hw. unfold wake.
  destruct (is_wait (status (procs st w))) eqn:Ewait; [|apply release_fault].
  apply is_wait_true in Ewait.
  eapply (release_wake rid st r w); eauto.
  intros q Hq. cbn. now rewrite upd_proc_other.
Qed.

Lemma fcfs_release_shape rid st : release_shape rid st (fcfs_release rid st).
Proof.
  unfold fcfs_release.
  destruct (resources st !! rid) as [r|] eqn:Hr; [|apply release_fault].
  destruct (decide (owner r = current st)); [|apply release_fault].
  destruct (waitqueue r) as [|w ws] eqn:Hq.
  - eapply (release_plain rid st r); eauto. now rewrite Hq.
  - rewrite <- Hq. apply wake_shape; [exact Hr|].
    rewrite Hq. apply list_elem_of_here.
Qed.

(** The scans of [prio_release] do not influence which waiter it wakes. *)
Lemma prio_release_fcfs rid st : prio_release rid st = fcfs_release rid st.
Proof. reflexivity. Qed.

Lemma pip_release_shape rid st : release_shape rid st (pip_release rid st).
Proof.
  unfold pip_release.
  destruct (resources st !! rid) as [r|] eqn:Hr; [|apply release_fault].
  destruct (decide (owner r = current st)); [|apply release_fault].
  destruct (owner r) as [o|] eqn:Ho; [|apply release_fault].
  destruct (waitqueue r) as [|w ws] eqn:Hq.
  - eapply (release_plain rid st r); eauto; [now rewrite Hq|].
    intros q. cbn. now apply (upd_proc_field status).
  - rewrite <- Hq.
    destruct (scan_eq _ _ (waitqueue r)) as [|p|] eqn:E;
      [apply release_fault | | apply release_fault].
    destruct (is_wait _) eqn:Ewait; [|apply release_fault].
    rewrite count_entries_self.
    apply is_wait_true in Ewait. rewrite (upd_proc_field status) in Ewait by reflexivity.
    eapply (release_wake rid st r p); eauto.
    + eapply scan_eq_elem, E.
    + intros q Hne. cbn. rewrite upd_proc_other by exact Hne.
      now apply (upd_proc_field status).
Qed.

Lemma release_of_shape pol rid st : release_shape rid st (release_of pol rid st).
Proof.
  destruct pol; cbn [release_of]; rewrite ?prio_release_fcfs;
    first [apply fcfs_release_shape | apply pip_release_shape].
Qed.

Lemma queued_resource_perm st st' rid r r' :
  resources st !! rid = Some r ->
  resources st' = <[rid := r']> (resources st) ->
  exists rest,
    queued st ≡ₚ readyqueue st ++ waitqueue r ++ rest /\
    queued st' ≡ₚ readyqueue st' ++ waitqueue r' ++ rest.
Proof.
  intros Hr Hres. destruct (waiting_insert _ _ _ Hr) as (rest & H1 & H2).
  exists rest. unfold queued. rewrite Hres, H1, H2. split; reflexivity.
Qed.

Lemma acquire_shape_membership rid st b st' :
  NoDup (queued st) -> runner_detached st -> runner_active st ->
  acquire_shape rid st (Ok b st') ->
  NoDup (queued st') /\ runner_detached st'.
Proof.
  intros Hnd Hdet Hact Hshape. inversion Hshape; subst.
  - destruct (queued_resource_perm st
                (with_resource rid (mkResource (current st) (waitqueue r)) st)
                rid r _ ltac:(eassumption) eq_refl) as (rest & Hp1 & Hp2).
    cbn in Hp2. rewrite <- Hp1 in Hp2. split; [now rewrite Hp2|].
    intros c Hc Hs. rewrite Hp2. now apply Hdet.
  - match goal with H : resources st' = _ |- _ =>
      destruct (queued_resource_perm st st' rid r _ ltac:(eassumption) H)
        as (rest & Hp1 & Hp2) end.
    cbn in Hp2. unfold list_add_tail in Hp2.
    assert (queued st' ≡ₚ c :: queued st) as Hperm.
    { rewrite Hp2, Hp1. match goal with H : readyqueue st' = _ |- _ => rewrite H end.
      rewrite <- app_assoc. cbn. rewrite <- !Permutation_middle. reflexivity. }
    split.
    + rewrite Hperm. apply NoDup_cons. split; [|exact Hnd].
      apply Hdet; [assumption | now apply Hact].
    + intros c' Hc' Hs. exfalso. apply Hs.
      assert (c' = c) as -> by congruence. assumption.
Qed.

Lemma release_shape_membership rid st st' :
  NoDup (queued st) -> runner_detached st -> runner_active st ->
  release_shape rid st (Ok tt st') ->
  NoDup (queued st') /\ runner_detached st'.
Proof.
  intros Hnd Hdet Hact Hshape. inversion Hshape; subst.
  - match goal with H : resources st' = _ |- _ =>
      destruct (queued_resource_perm st st' rid r _ ltac:(eassumption) H)
        as (rest & Hp1 & Hp2) end.
    cbn in Hp2. match goal with H : readyqueue st' = _ |- _ => rewrite H in Hp2 end.
    rewrite <- Hp1 in Hp2. split; [now rewrite Hp2|].
    intros c Hc Hs. rewrite Hp2. apply Hdet; [congruence|].
    match goal with H : forall q, status _ = _ |- _ => now rewrite <- H end.
  - match goal with H : resources st' = _ |- _ =>
      destruct (queued_resource_perm st st' rid r _ ltac:(eassumption) H)
        as (rest & Hp1 & Hp2) end.
    cbn in Hp2. match goal with H : readyqueue st' = _ |- _ => rewrite H in Hp2 end.
    assert (queued st' ≡ₚ queued st) as Hperm.
    { rewrite Hp2, Hp1. unfold list_add_tail. rewrite <- app_assoc. cbn.
      apply Permutation_app_head.
      change (w :: ?l ++ rest) with ((w :: l) ++ rest).
      apply Permutation_app_tail. symmetry. now apply list_del_init_perm. }
    split; [now rewrite Hperm|].
    intros c Hc Hs. rewrite Hperm.
    assert (current st = Some c) as Hc0 by congruence.
    apply Hdet; [exact Hc0 | now apply Hact].
Qed.

(** ** Exclusive queue membership *)

(** C6: every process is a member of at most one collection.  Starting
    from a state in which no process is linked twice (on one queue or on
    two), with a current process that is linked on no queue unless it is
    blocked, and with acquire and release invoked for a current process
    that is not blocked, every callback of every policy that returns
    leaves a state in which the ready queue and every wait queue are
    duplicate-free, no process is on the ready queue and on a wait queue,
    no process is on two wait queues, and the process returned by a
    schedule function is on no queue at all. *)
Theorem queue_membership_exclusive pol c st rep st' :
  NoDup (queued st) ->
  runner_detached st ->
  (c <> Schedule -> runner_active st) ->
  run pol c st = Ok rep st' ->
  NoDup (queued st') /\
  NoDup (readyqueue st') /\
  (forall i r, resources st' !! i = Some r ->
     NoDup (waitqueue r) /\
     forall p, p ∈ waitqueue r -> p ∉ readyqueue st') /\
  (forall i j r1 r2, i <> j ->
     resources st' !! i = Some r1 -> resources st' !! j = Some r2 ->
     forall p, p ∈ waitqueue r1 -> p ∉ waitqueue r2) /\
  (forall p, rep = Scheduled (Some p) -> p ∉ queued st') /\
  (c <> Schedule -> runner_detached st').
Proof.
  intros Hnd Hdet Hact Hrun.
  assert (NoDup (queued st') /\
          (forall p, rep = Scheduled (Some p) -> p ∉ queued st') /\
          (c <> Schedule -> runner_detached st')) as (H1 & H2 & H3).
  { destruct c as [|rid|rid]; cbn [run] in Hrun.
    - pose proof (schedule_of_shape pol st) as Hs.
      destruct (schedule_of pol st) as [ret s|e]; [|discriminate].
      cbn in Hrun. injection Hrun as <- <-.
      destruct (sched_shape_membership st ret s Hnd Hdet Hs) as [Ha Hb].
      split; [exact Ha|]. split; [|congruence].
      intros p [= ->]. now apply Hb.
    - pose proof (acquire_of_shape pol rid st) as Hs.
      destruct (acquire_of pol rid st) as [b s|e]; [|discriminate].
      cbn in Hrun. injection Hrun as <- <-.
      destruct (acquire_shape_membership rid st b s Hnd Hdet
                  (Hact ltac:(discriminate)) Hs) as [Ha Hb].
      split; [exact Ha|]. split; [discriminate | intros _; exact Hb].
    - pose proof (release_of_shape pol rid st) as Hs.
      destruct (release_of pol rid st) as [[] s|e]; [|discriminate].
      cbn in Hrun. injection Hrun as <- <-.
      destruct (release_shape_membership rid st s Hnd Hdet
                  (Hact ltac:(discriminate)) Hs) as [Ha Hb].
      split; [exact Ha|]. split; [discriminate | intros _; exact Hb]. }
  destruct (queued_NoDup_unfold st' H1) as (Hq1 & Hq2 & Hq3).
  repeat split; try assumption; try (eapply Hq2; eassumption).
Qed.

(** The invariant through one schedule, one denied acquire and one
    release on the scenes [busy_state] and [releasing_state]. *)
Lemma queue_membership_exclusive_witness :
  (NoDup (queued (with_readyqueue [0] busy_state)) /\
   1 ∉ queued (with_readyqueue [0] busy_state)) /\
  (exists st', pip_acquire 0 busy_state = Ok false st' /\
     queued st' = [1; 3; 0] /\ NoDup (queued st')) /\
  (exists st', fcfs_release 0 releasing_state = Ok tt st' /\
     queued st' = [1; 3] /\ NoDup (queued st')).
Proof.
  assert (NoDup (queued busy_state)) as Hnd
    by (apply (bool_decide_unpack _); vm_compute; exact I).
  assert (runner_detached busy_state) as Hdet
    by (intros c [= <-] _; apply (bool_decide_unpack _); vm_compute; exact I).
  assert (runner_detached releasing_state) as Hdet'
    by (intros c [= <-] _; apply (bool_decide_unpack _); vm_compute; exact I).
  assert (runner_active busy_state) as Hact by (intros c [= <-]; discriminate).
  assert (runner_active releasing_state) as Hact'
    by (intros c [= <-]; discriminate).
  split; [|split].
  - destruct (queue_membership_exclusive RR Schedule busy_state
                (Scheduled (Some 1)) (with_readyqueue [0] busy_state)
                Hnd Hdet ltac:(congruence) eq_refl)
      as (H1 & _ & _ & _ & H5 & _).
    split; [exact H1 | now apply H5].
  - eexists. split; [reflexivity|]. split; [reflexivity|].
    eapply (queue_membership_exclusive PIP (Acquire 0) busy_state
              (Acquired false) _ Hnd Hdet (fun _ => Hact) eq_refl).
  - eexists. split; [reflexivity|]. split; [reflexivity|].
    eapply (queue_membership_exclusive FIFO (Release 0) releasing_state
              Released _ Hnd Hdet' (fun _ => Hact') eq_refl).
Defined.

(** ** Acquire *)


(** C10: the Priority-variant acquire is extensionally the FCFS acquire:
    on every resource index and state both return the same boolean and the
    same state (or the same fault), and that common behaviour is the
    acquire of the spec: a free resource goes to the requester; on an owned
    one the requester becomes WAIT and is appended to the tail of the wait
    queue, whatever the priorities. *)
Theorem prio_acquire_equals_fcfs_acquire rid st :
  prio_acquire rid st = fcfs_acquire rid st /\
  fcfs_acquire rid st = acquire_by_spec rid st.
Proof.
  split; [reflexivity|].
  unfold fcfs_acquire, acquire_by_spec.
  destruct (resources st !! rid) as [r|]; [|reflexivity].
  destruct (owner r); [|reflexivity].
  destruct (current st); reflexivity.
Qed.

(** ** FCFS release *)

(** C8: [fcfs_release] stops the program when the current process is not
    the owner of the resource, and when the waiter at the head of the wait
    queue is not in WAIT status.  When the current process is the owner the
    call returns and the resource has no owner afterwards.  With an empty
    wait queue nothing else changes.  Otherwise exactly the head waiter is
    woken: its status goes from WAIT to READY and its other fields stay as
    they were, it leaves the wait queue, whose other waiters keep their
    places, and it is appended to the tail of the ready queue; the current
    process, the other resources and the other processes are as before. *)
Theorem fcfs_release_contract rid st r :
  resources st !! rid = Some r ->
  (owner r <> current st -> fcfs_release rid st = Fault AssertionFailed) /\
  (forall w ws, owner r = current st -> waitqueue r = w :: ws ->
     status (procs st w) <> PROCESS_WAIT ->
     fcfs_release rid st = Fault AssertionFailed) /\
  (owner r = current st -> waitqueue r = [] ->
     exists st',
       fcfs_release rid st = Ok tt st' /\
       current st' = current st /\
       readyqueue st' = readyqueue st /\
       resources st' !! rid = Some (mkResource None []) /\
       length (resources st') = length (resources st) /\
       (forall j, j <> rid -> resources st' !! j = resources st !! j) /\
       procs st' = procs st) /\
  (forall w ws, owner r = current st -> waitqueue r = w :: ws ->
     status (procs st w) = PROCESS_WAIT ->
     exists st',
       fcfs_release rid st = Ok tt st' /\
       current st' = current st /\
       readyqueue st' = readyqueue st ++ [w] /\
       resources st' !! rid = Some (mkResource None ws) /\
       length (resources st') = length (resources st) /\
       (forall j, j <> rid -> resources st' !! j = resources st !! j) /\
       status (procs st' w) = PROCESS_READY /\
       age (procs st' w) = age (procs st w) /\
       lifespan (procs st' w) = lifespan (procs st w) /\
       prio (procs st' w) = prio (procs st w) /\
       prio_orig (procs st' w) = prio_orig (procs st w) /\
       resources_to_acquire (procs st' w)
       = resources_to_acquire (procs st w) /\
       (forall q, q <> w -> procs st' q = procs st q)).
Proof.
  intros Hr. pose proof (lookup_lt_Some _ _ _ Hr) as Hlt.
  unfold fcfs_release. rewrite Hr.
  split; [|split; [|split]].
  - intros Hne. now destruct (decide (owner r = current st)).
  - intros w ws Ho Hq Hs. destruct (decide (owner r = current st)); [|reflexivity].
    rewrite Hq. unfold wake. apply is_wait_false in Hs. now rewrite Hs.
  - intros Ho Hq. destruct (decide (owner r = current st)); [|contradiction].
    rewrite Hq. eexists. split; [reflexivity|]. cbn.
    split; [reflexivity|]. split; [reflexivity|].
    split; [now apply list_lookup_insert_eq|].
    split; [apply length_insert|].
    split; [|reflexivity].
    intros j Hj. now apply list_lookup_insert_ne.
  - intros w ws Ho Hq Hs. destruct (decide (owner r = current st)); [|contradiction].
    rewrite Hq. unfold wake. apply is_wait_true in Hs. rewrite Hs.
    rewrite list_del_init_head. eexists. split; [reflexivity|]. cbn.
    split; [reflexivity|]. split; [reflexivity|].
    split; [now apply list_lookup_insert_eq|].
    split; [apply length_insert|].
    split; [intros j Hj; now apply list_lookup_insert_ne|].
    rewrite upd_proc_same. cbn.
    repeat (split; [reflexivity|]).
    intros q Hq'. now rewrite upd_proc_other.
Qed.

(** A release by a process that is not the owner, and the release of
    resource 0 by its owner in [releasing_state]: process 3, the only
    waiter, was in WAIT status and is READY afterwards. *)
Lemma fcfs_release_contract_witness :
  fcfs_release 0 busy_state = Fault AssertionFailed /\
  status (procs releasing_state 3) = PROCESS_WAIT /\
  exists st',
    fcfs_release 0 releasing_state = Ok tt st' /\
    readyqueue st' = [1; 3] /\
    resources st' !! 0 = Some (mkResource None []) /\
    status (procs st' 3) = PROCESS_READY /\
    status (procs st' 1) = PROCESS_READY /\
    status (procs st' 0) = PROCESS_RUNNING.
Proof.
  split; [|split; [reflexivity|]].
  - apply (fcfs_release_contract 0 busy_state (mkResource (Some 2) [3]) eq_refl).
    discriminate.
  - destruct (fcfs_release_contract 0 releasing_state (mkResource (Some 2) [3])
                eq_refl) as (_ & _ & _ & Hwake).
    destruct (Hwake 3%nat [] eq_refl eq_refl eq_refl)
      as (st' & Hrel & _ & Hrq & Hres & _ & _ & Hst & _ & _ & _ & _ & _ & Hoth).
    exists st'. split; [exact Hrel|]. split; [exact Hrq|].
    split; [exact Hres|]. split; [exact Hst|].
    split; [rewrite (Hoth 1%nat) by discriminate; reflexivity|].
    rewrite (Hoth 0%nat) by discriminate. reflexivity.
Defined.

(** ** Priority inheritance *)

(** Started on the key of the first entry, the maximum is attained on
    the queue, so the second loop always stops on an entry. *)
Lemma scan_max_entry key a l :
  exists n, scan_eq key (scan_max key (a :: l) (key a)) (a :: l) = Entry n.
Proof.
  destruct (scan_eq_cases key (scan_max key (a :: l) (key a)) (a :: l))
    as [H|H]; [exact H|].
  exfalso. pose proof (proj1 (scan_eq_stray _ _ _) H) as Hs.
  destruct (scan_max_attained key (a :: l) (key a)) as [E|(x & Hx & E)].
  - apply (Hs a); [apply list_elem_of_here | now rewrite E].
  - now apply (Hs x).
Qed.

(** The release of an owner that is the current process, with waiters
    that all wait, succeeds and restores the owner's base priority. *)
Lemma pip_release_restores rid st r o :
  resources st !! rid = Some r ->
  owner r = Some o ->
  current st = Some o ->
  (forall w, w ∈ waitqueue r -> status (procs st w) = PROCESS_WAIT) ->
  exists st', pip_release rid st = Ok tt st' /\
    prio (procs st' o) = prio_orig (procs st o) /\
    (forall q, q <> o -> prio (procs st' q) = prio (procs st q)) /\
    (forall q, prio_orig (procs st' q) = prio_orig (procs st q)).
Proof.
  intros Hr Ho Hc Hw. unfold pip_release. rewrite Hr.
  destruct (decide (owner r = current st)) as [_|Hne]; [|congruence].
  rewrite Ho.
  set (h1 := upd_proc o (fun P => set_prio (prio_orig P) P) (procs st)).
  assert (prio (h1 o) = prio_orig (procs st o)) as Hp
    by (unfold h1; now rewrite upd_proc_same).
  assert (forall q, q <> o -> prio (h1 q) = prio (procs st q)) as Hp'
    by (intros q Hq; unfold h1; now rewrite upd_proc_other).
  assert (forall q, prio_orig (h1 q) = prio_orig (procs st q)) as Hpo
    by (intros q; unfold h1; now apply upd_proc_field).
  destruct (waitqueue r) as [|a l] eqn:Hq.
  - eexists. split; [reflexivity|]. cbn. auto.
  - rewrite <- Hq.
    destruct (scan_max_entry (fun p => prio (h1 p)) a l) as (n & Hn).
    rewrite <- Hq in Hn. rewrite Hn.
    assert (is_wait (status (h1 n)) = true) as ->.
    { apply is_wait_true. unfold h1. rewrite upd_proc_field by reflexivity.
      apply Hw. rewrite <- Hq. eapply scan_eq_elem, Hn. }
    rewrite count_entries_self. eexists. split; [reflexivity|]. cbn.
    repeat split.
    + now rewrite upd_proc_field by reflexivity.
    + intros q Hne. rewrite upd_proc_field by reflexivity. now apply Hp'.
    + intros q. rewrite upd_proc_field by reflexivity. apply Hpo.
Qed.

(** C4: on an owned resource, [pip_acquire] raises the owner's priority
    to the requester's exactly when the requester's current priority is
    strictly greater, and changes no other priority; in every owned case
    the requester becomes WAIT, is appended to the tail of the resource's
    wait queue, and false is returned.  When the owner later runs and calls
    [pip_release] on the resource (the waiters being in WAIT status), the
    call succeeds and the owner's priority is its base priority again. *)
Theorem pip_inheritance rid st r o c :
  resources st !! rid = Some r ->
  owner r = Some o ->
  current st = Some c ->
  (exists st1, pip_acquire rid st = Ok false st1 /\
     prio (procs st1 o)
     = (if (prio (procs st o) <? prio (procs st c))%Z
        then prio (procs st c) else prio (procs st o)) /\
     (forall q, q <> o -> prio (procs st1 q) = prio (procs st q)) /\
     (forall q, prio_orig (procs st1 q) = prio_orig (procs st q)) /\
     status (procs st1 c) = PROCESS_WAIT /\
     (forall q, q <> c -> status (procs st1 q) = status (procs st q)) /\
     resources st1
     = <[rid := mkResource (Some o) (waitqueue r ++ [c])]> (resources st) /\
     readyqueue st1 = readyqueue st /\
     current st1 = current st) /\
  (forall st2 r2,
     resources st2 !! rid = Some r2 ->
     owner r2 = Some o ->
     current st2 = Some o ->
     (forall w, w ∈ waitqueue r2 -> status (procs st2 w) = PROCESS_WAIT) ->
     exists st3, pip_release rid st2 = Ok tt st3 /\
       prio (procs st3 o) = prio_orig (procs st2 o)).
Proof.
  intros Hr Ho Hc. split.
  - unfold pip_acquire. rewrite Hr, Ho, Hc.
    set (h1 := upd_proc c (set_status PROCESS_WAIT) (procs st)).
    assert (forall q, prio (h1 q) = prio (procs st q)) as Hp
      by (intros q; unfold h1; now apply upd_proc_field).
    rewrite !Hp.
    eexists. split; [reflexivity|]. cbn.
    destruct (prio (procs st o) <? prio (procs st c))%Z eqn:Hlt.
    + repeat split.
      * now rewrite upd_proc_same.
      * intros q Hq. rewrite upd_proc_other by exact Hq. apply Hp.
      * intros q. rewrite upd_proc_field by reflexivity.
        unfold h1. now apply upd_proc_field.
      * rewrite upd_proc_field by reflexivity. unfold h1.
        now rewrite upd_proc_same.
      * intros q Hq. rewrite upd_proc_field by reflexivity. unfold h1.
        now rewrite upd_proc_other.
      * exact Hc.
    + repeat split.
      * apply Hp.
      * intros q _. apply Hp.
      * intros q. unfold h1. now apply upd_proc_field.
      * unfold h1. now rewrite upd_proc_same.
      * intros q Hq. unfold h1. now rewrite upd_proc_other.
      * exact Hc.
  - intros st2 r2 Hr2 Ho2 Hc2 Hw.
    destruct (pip_release_restores rid st2 r2 o Hr2 Ho2 Hc2 Hw)
      as (st3 & H1 & H2 & _).
    exists st3. split; assumption.
Qed.

(** The example of the spec: O (priority 1) holds the resource, W
    (priority 5) asks for it; O runs at priority 5 until it releases. *)
Lemma pip_inheritance_witness :
  (exists st1, pip_acquire 0 inversion_state = Ok false st1 /\
     prio (procs st1 0) = 5%Z /\ status (procs st1 1) = PROCESS_WAIT /\
     resources st1 !! 0 = Some (mkResource (Some 0) [1])) /\
  (exists st3, pip_release 0 inherited_state = Ok tt st3 /\
     prio (procs st3 0) = 1%Z).
Proof.
  destruct (pip_inheritance 0 inversion_state (mkResource (Some 0) []) 0 1
              eq_refl eq_refl eq_refl) as [(st1 & H1 & H2 & _ & _ & H5 & _ & H7 & _) H].
  split.
  - exists st1. repeat split; [exact H1 | exact H2 | exact H5 |].
    rewrite H7. reflexivity.
  - destruct (H inherited_state (mkResource (Some 0) [1]) eq_refl eq_refl eq_refl)
      as (st3 & H3 & H4).
    + intros w Hw. apply list_elem_of_singleton in Hw as ->. reflexivity.
    + exists st3. split; [exact H3 | exact H4].
Defined.

(** ** The priority invariant *)

Lemma sched_shape_procs st ret st' :
  sched_shape st (Ok ret st') -> procs st' = procs st.
Proof. intros H. inversion H; reflexivity. Qed.

(** [pip_acquire] leaves every priority alone or raises it, strictly, to
    the priority of the requester; it never touches a base priority. *)
Lemma pip_acquire_raises rid st b st' :
  pip_acquire rid st = Ok b st' ->
  forall p,
    prio_orig (procs st' p) = prio_orig (procs st p) /\
    (prio (procs st' p) = prio (procs st p) \/
     (prio (procs st p) < prio (procs st' p))%Z /\
     exists c, current st = Some c /\
               prio (procs st' p) = prio (procs st c)).
Proof.
  unfold pip_acquire.
  destruct (resources st !! rid) as [r|]; [|discriminate].
  destruct (owner r) as [o|].
  2: { intros [= <- <-] p. cbn. auto. }
  destruct (current st) as [c|] eqn:Hc; [|discriminate].
  intros [= <- <-] p. cbn.
  set (h1 := upd_proc c (set_status PROCESS_WAIT) (procs st)).
  assert (forall q, prio (h1 q) = prio (procs st q)) as Hp
    by (intros q; unfold h1; now apply upd_proc_field).
  assert (forall q, prio_orig (h1 q) = prio_orig (procs st q)) as Hpo
    by (intros q; unfold h1; now apply upd_proc_field).
  rewrite !Hp. destruct (Z.ltb_spec (prio (procs st o)) (prio (procs st c))) as [Hlt|Hge].
  - split; [rewrite upd_proc_field by reflexivity; apply Hpo|].
    destruct (Nat.eq_dec p o) as [->|Hne].
    + right. rewrite upd_proc_same. cbn. split; [exact Hlt|]. now exists c.
    + left. rewrite upd_proc_other by exact Hne. apply Hp.
  - split; [apply Hpo | left; apply Hp].
Qed.

(** [pip_release] sets the priority of the releasing process to its base
    priority and touches no other priority. *)
Lemma pip_release_priorities rid st st' c :
  current st = Some c ->
  pip_release rid st = Ok tt st' ->
  prio (procs st' c) = prio_orig (procs st c) /\
  (forall p, p <> c -> prio (procs st' p) = prio (procs st p)) /\
  (forall p, prio_orig (procs st' p) = prio_orig (procs st p)).
Proof.
  intros Hc. unfold pip_release.
  destruct (resources st !! rid) as [r|]; [|discriminate].
  destruct (decide (owner r = current st)) as [Ho|]; [|discriminate].
  rewrite Ho, Hc.
  set (h1 := upd_proc c (fun P => set_prio (prio_orig P) P) (procs st)).
  assert (prio (h1 c) = prio_orig (procs st c)) as Hp
    by (unfold h1; now rewrite upd_proc_same).
  assert (forall q, q <> c -> prio (h1 q) = prio (procs st q)) as Hp'
    by (intros q Hq; unfold h1; now rewrite upd_proc_other).
  assert (forall q, prio_orig (h1 q) = prio_orig (procs st q)) as Hpo
    by (intros q; unfold h1; now apply upd_proc_field).
  destruct (waitqueue r) as [|a l]; [intros [= <-]; cbn; auto|].
  destruct (scan_eq _ _ _) as [|n|]; try discriminate.
  destruct (is_wait _); [|discriminate].
  rewrite count_entries_self. intros [= <-]. cbn. repeat split.
  - now rewrite upd_proc_field by reflexivity.
  - intros p Hne. rewrite upd_proc_field by reflexivity. now apply Hp'.
  - intros p. rewrite upd_proc_field by reflexivity. apply Hpo.
Qed.

Lemma fcfs_acquire_priorities rid st b st' :
  fcfs_acquire rid st = Ok b st' ->
  forall p, prio_orig (procs st' p) = prio_orig (procs st p) /\
            prio (procs st' p) = prio (procs st p).
Proof.
  unfold fcfs_acquire.
  destruct (resources st !! rid) as [r|]; [|discriminate].
  destruct (owner r) as [o|].
  2: { intros [= <- <-] p. cbn. auto. }
  destruct (current st) as [c|]; [|discriminate].
  intros [= <- <-] p. cbn. split; now apply upd_proc_field.
Qed.

Lemma fcfs_release_priorities rid st st' :
  fcfs_release rid st = Ok tt st' ->
  forall p, prio_orig (procs st' p) = prio_orig (procs st p) /\
            prio (procs st' p) = prio (procs st p).
Proof.
  unfold fcfs_release, wake.
  destruct (resources st !! rid) as [r|]; [|discriminate].
  destruct (decide (owner r = current st)); [|discriminate].
  destruct (waitqueue r) as [|w ws]; [intros [= <-] p; cbn; auto|].
  destruct (is_wait _); [|discriminate].
  intros [= <-] p. cbn. split; now apply upd_proc_field.
Qed.

(** One callback keeps every base priority and never moves a priority
    below it. *)
Lemma run_priorities pol c st rep st' :
  prio_inv st -> run pol c st = Ok rep st' ->
  prio_inv st' /\
  forall p, prio_orig (procs st' p) = prio_orig (procs st p).
Proof.
  intros Hinv Hrun. destruct c as [|rid|rid]; cbn [run] in Hrun.
  - pose proof (schedule_of_shape pol st) as Hs.
    destruct (schedule_of pol st) as [ret s|e]; [|discriminate].
    cbn in Hrun. injection Hrun as <- <-.
    apply sched_shape_procs in Hs. unfold prio_inv. rewrite Hs. auto.
  - assert (forall b s, acquire_of pol rid st = Ok b s ->
              forall p, prio_orig (procs s p) = prio_orig (procs st p) /\
                        (prio (procs st p) <= prio (procs s p))%Z) as Hacq.
    { intros b s Hb p. destruct pol; cbn [acquire_of] in Hb;
        rewrite ?prio_acquire_fcfs in Hb;
        first [ destruct (fcfs_acquire_priorities _ _ _ _ Hb p) as [-> ->]; split; [reflexivity|lia]
              | destruct (pip_acquire_raises _ _ _ _ Hb p) as [-> [->|[Hlt _]]];
                split; first [reflexivity | lia] ]. }
    destruct (acquire_of pol rid st) as [b s|e]; [|discriminate].
    cbn in Hrun. injection Hrun as <- <-. split.
    + intros p. destruct (Hacq b s eq_refl p) as [-> Hle].
      specialize (Hinv p). lia.
    + intros p. apply (Hacq b s eq_refl p).
  - assert (forall s, release_of pol rid st = Ok tt s ->
              forall p, prio_orig (procs s p) = prio_orig (procs st p) /\
                        (prio (procs s p) = prio (procs st p) \/
                         prio (procs s p) = prio_orig (procs st p))) as Hrel.
    { intros s Hb p. destruct pol; cbn [release_of] in Hb;
        rewrite ?prio_release_fcfs in Hb;
        try (destruct (fcfs_release_priorities _ _ _ Hb p) as [-> ->]; now auto).
      destruct (current st) as [c|] eqn:Hc.
      - destruct (pip_release_priorities rid st s c Hc Hb) as (H1 & H2 & H3).
        split; [apply H3|]. destruct (Nat.eq_dec p c) as [->|Hne]; auto.
      - unfold pip_release in Hb. rewrite Hc in Hb.
        destruct (resources st !! rid) as [r|]; [|discriminate].
        destruct (decide (owner r = None)) as [e|]; [rewrite e in Hb|];
          discriminate. }
    destruct (release_of pol rid st) as [[] s|e]; [|discriminate].
    cbn in Hrun. injection Hrun as <- <-. split.
    + intros p. destruct (Hrel s eq_refl p) as [-> [->| ->]]; [apply Hinv | lia].
    + intros p. apply (Hrel s eq_refl p).
Qed.

(** C9: [prio >= prio_orig] holds for every process in every state
    reachable through the core operations from a state in which it holds,
    and the base priorities never change.  In such a state [pip_acquire]
    leaves each priority alone or raises it strictly, to the requester's
    priority, and [pip_release] sets the releasing process's priority
    exactly to its base priority and touches no other one. *)
Theorem prio_never_below_prio_orig pol st0 st :
  prio_inv st0 ->
  reachable pol st0 st ->
  prio_inv st /\
  (forall p, prio_orig (procs st p) = prio_orig (procs st0 p)) /\
  (forall rid b st', pip_acquire rid st = Ok b st' ->
     forall p, prio (procs st' p) = prio (procs st p) \/
       (prio (procs st p) < prio (procs st' p))%Z /\
       exists c, current st = Some c /\
                 prio (procs st' p) = prio (procs st c)) /\
  (forall rid c st', current st = Some c ->
     pip_release rid st = Ok tt st' ->
     prio (procs st' c) = prio_orig (procs st c) /\
     forall p, p <> c -> prio (procs st' p) = prio (procs st p)).
Proof.
  intros H0 Hreach.
  assert (prio_inv st /\
          forall p, prio_orig (procs st p) = prio_orig (procs st0 p)) as [Hinv Hpo].
  { induction Hreach as [|st c rep st' _ [IH1 IH2] Hrun|st st' _ [IH1 IH2] Hd].
    - split; [exact H0 | reflexivity].
    - destruct (run_priorities _ _ _ _ _ IH1 Hrun) as [H1 H2].
      split; [exact H1|]. intros p. now rewrite H2.
    - split.
      + intros p. destruct (Hd p) as [-> ->]. apply IH1.
      + intros p. destruct (Hd p) as [_ ->]. apply IH2. }
  split; [exact Hinv|]. split; [exact Hpo|]. split.
  - intros rid b st' Hacq p. apply (pip_acquire_raises _ _ _ _ Hacq p).
  - intros rid c st' Hc Hrel.
    destruct (pip_release_priorities _ _ _ _ Hc Hrel) as (H1 & H2 & _).
    split; assumption.
Qed.

Lemma table_prio_inv l :
  Forall (fun P => (prio_orig P <= prio P)%Z) l -> forall p,
  (prio_orig (table l p) <= prio (table l p))%Z.
Proof.
  intros Hl p. unfold table. revert p.
  assert (prio_orig idle_process <= prio idle_process)%Z as Hidle
    by (unfold idle_process, proc; cbn; lia).
  induction Hl as [|P l HP _ IH]; intros [|p]; cbn [nth];
    first [exact Hidle | exact HP | apply IH].
Qed.

(** The state reached from [inversion_state] by the denied acquire. *)
Lemma prio_never_below_prio_orig_witness :
  exists st1,
    run PIP (Acquire 0) inversion_state = Ok (Acquired false) st1 /\
    prio_inv st1 /\
    prio (procs st1 0) = 5%Z /\ prio_orig (procs st1 0) = 1%Z.
Proof.
  eexists. split; [reflexivity|].
  split; [|split; reflexivity].
  apply (prio_never_below_prio_orig PIP inversion_state).
  - intros p. apply table_prio_inv.
    apply (bool_decide_unpack _). vm_compute. exact I.
  - eapply (reach_call _ _ _ (Acquire 0)); [apply reach_init | reflexivity].
Defined.

(** ** Release under the priority variants *)

(** C2, evaluated on [contended_state]: process 2 is the waiter with the
    maximal base priority, yet [prio_release] wakes process 1, the head of
    the wait queue, and leaves process 2 waiting. *)
Theorem prio_release_wakes_head :
  first_max (fun p => prio_orig (procs contended_state p)) [1; 2] 2 /\
  prio_release 0 contended_state
  = Ok tt (mkState (Some 0) [1]
             (<[0 := mkResource None [2]]> (resources contended_state))
             (upd_proc 1 (set_status PROCESS_READY) contended_procs)).
Proof.
  split; [|reflexivity].
  exists [1], []. split; [reflexivity|]. split.
  - intros x ->%list_elem_of_singleton. cbn. lia.
  - intros x Hx. inversion Hx.
Qed.

(** C1, evaluated on [pending_state]: the waiter chosen by [pip_release]
    still has two entries on its list of resources to acquire, yet it is
    made READY and appended to the ready queue. *)
Theorem pip_release_wakes_pending_waiter :
  resources_to_acquire (procs pending_state 1) = [0; 1] /\
  exists st',
    pip_release 0 pending_state = Ok tt st' /\
    status (procs st' 1) = PROCESS_READY /\
    readyqueue st' = [1].
Proof.
  split; [reflexivity|]. eexists. split; [reflexivity|]. split; reflexivity.
Qed.

(** Whatever the waiter's outstanding acquisitions, the two counters of
    [pip_release] are equal, so a chosen waiter is always woken. *)
Lemma pip_release_always_wakes rid st r o :
  resources st !! rid = Some r ->
  owner r = Some o ->
  current st = Some o ->
  waitqueue r <> [] ->
  forall st', pip_release rid st = Ok tt st' ->
  exists w, w ∈ waitqueue r /\
    status (procs st' w) = PROCESS_READY /\
    readyqueue st' = readyqueue st ++ [w].
Proof.
  intros Hr Ho Hc Hq st'. unfold pip_release. rewrite Hr.
  destruct (decide (owner r = current st)); [|discriminate].
  rewrite Ho. destruct (waitqueue r) as [|a l] eqn:Ewq; [contradiction|].
  destruct (scan_eq _ _ _) as [|n|] eqn:E; try discriminate.
  destruct (is_wait _); [|discriminate].
  rewrite count_entries_self. intros [= <-]. exists n. cbn.
  split; [eapply scan_eq_elem, E|].
  split; [now rewrite upd_proc_same | reflexivity].
Qed.

(** ** Preemption under the priority schedulers *)

Lemma priority_schedule_rule field st c :
  current st = Some c ->
  status (procs st c) <> PROCESS_WAIT ->
  (age (procs st c) < lifespan (procs st c))%Z ->
  preemption_rule (priority_schedule field) field st c.
Proof.
  intros Hc Hs Hlife. unfold preemption_rule, priority_schedule. rewrite Hc.
  apply is_wait_false in Hs. rewrite Hs. cbn [orb].
  destruct (Z.eqb_spec (age (procs st c)) (lifespan (procs st c))) as [E|_]; [lia|].
  destruct (readyqueue st) as [|a q] eqn:Erq.
  - left. split; [intros p Hp; inversion Hp|].
    apply Z.ltb_lt in Hlife. now rewrite Hlife.
  - rewrite <- Erq.
    set (key := fun p => field (procs st p)).
    change (field (procs st c)) with (key c).
    pose proof (scan_max_init key (readyqueue st) (key c)) as Hinit.
    destruct (scan_eq key _ (readyqueue st)) as [|n|] eqn:E.
    + now apply scan_eq_not_null in E.
    + right. pose proof (scan_max_first _ _ _ _ E) as (l1 & l2 & Eq & Hlt & Hle).
      apply scan_eq_entry in E as (_ & _ & _ & Hn & _).
      exists l1, n, l2. repeat split; try assumption.
      * change (key c <= key n)%Z. lia.
      * do 2 f_equal. rewrite Eq. unfold list_add_tail.
        rewrite <- app_assoc. cbn. apply list_del_init_middle.
        intros Hin. specialize (Hlt n Hin). lia.
    + left. pose proof (proj1 (scan_eq_stray _ _ _) E) as Hne. split; [|reflexivity].
      intros p Hp. change (key p < key c)%Z.
      pose proof (scan_max_upper key _ (key c) p Hp) as Hup.
      specialize (Hne p Hp).
      destruct (scan_max_attained key (readyqueue st) (key c)) as [Em|(x & Hx & Em)].
      * lia.
      * exfalso. now apply (proj1 (scan_eq_stray _ _ _) E x).
Qed.

(** C3, counterexample: in [tie_state] the running process has remaining
    lifetime and the only ready process has the same priority, not a
    higher one; both priority schedulers nevertheless put the running
    process back on the ready queue and dispatch the ready one. *)
Lemma tie_preempts_incumbent :
  current tie_state = Some 0 /\
  status (procs tie_state 0) = PROCESS_RUNNING /\
  Z.lt (age (procs tie_state 0)) (lifespan (procs tie_state 0)) /\
  readyqueue tie_state = [1] /\
  Z.le (prio_orig (procs tie_state 1)) (prio_orig (procs tie_state 0)) /\
  Z.le (prio (procs tie_state 1)) (prio (procs tie_state 0)) /\
  prio_schedule tie_state = Ok (Some 1) (with_readyqueue [0] tie_state) /\
  pip_schedule tie_state = Ok (Some 1) (with_readyqueue [0] tie_state) /\
  prio_schedule tie_state <> Ok (Some 0) tie_state /\
  pip_schedule tie_state <> Ok (Some 0) tie_state.
Proof.
  repeat split; try reflexivity; try (cbn; lia); discriminate.
Qed.

(** C3, amended: for a running process with remaining lifetime, the
    Priority scheduler (on [prio_orig]) and the Priority-Inheritance
    scheduler (on [prio]) keep the running process exactly when every
    ready process has a strictly lower priority; otherwise they append the
    running process to the ready queue and dispatch the first ready
    process of maximal priority, whose priority is greater than or equal
    to the running one's.  A ready process of strictly lower priority
    never preempts; a tie goes to the ready process. *)
Theorem priority_preemption st c :
  current st = Some c ->
  status (procs st c) <> PROCESS_WAIT ->
  (age (procs st c) < lifespan (procs st c))%Z ->
  preemption_rule prio_schedule prio_orig st c /\
  preemption_rule pip_schedule prio st c.
Proof.
  intros Hc Hs Hlife. split.
  - apply (priority_schedule_rule prio_orig st c Hc Hs Hlife).
  - apply (priority_schedule_rule prio st c Hc Hs Hlife).
Qed.

(** The rule on [ladder_state]. *)
Lemma priority_preemption_witness :
  preemption_rule prio_schedule prio_orig ladder_state 0 /\
  preemption_rule pip_schedule prio ladder_state 0.
Proof.
  apply (priority_preemption ladder_state 0).
  - reflexivity.
  - discriminate.
  - cbn. lia.
Defined.

(** On [ladder_state] the rule selects process 2: the first of the two
    ready processes of priority 4. *)
Example ladder_dispatch :
  prio_schedule ladder_state = Ok (Some 2) (with_readyqueue [1; 3; 0] ladder_state).
Proof. reflexivity. Qed.

(** ** Shortest remaining time first *)

Lemma list_del_init_subset n q x : x ∈ list_del_init n q -> x ∈ q.
Proof.
  induction q as [|y q IH]; cbn; [easy|].
  destruct (y =? n).
  - apply list_elem_of_further.
  - intros [->|Hx]%elem_of_cons; [apply list_elem_of_here|].
    apply list_elem_of_further, IH, Hx.
Qed.

(** Where a process has not outlived its lifespan, the remaining time the
    code computes is the plain difference. *)
Lemma remaining_exact P :
  (0 <= age P <= lifespan P)%Z -> (lifespan P < 2 ^ 32)%Z ->
  remaining P = (lifespan P - age P)%Z.
Proof.
  intros Hage Hlife. unfold remaining, wrap. apply Z.mod_small. lia.
Qed.

(** No remaining time is below the minimum the first scan leaves. *)
Lemma srtf_returned_minimal st p st' :
  srtf_schedule st = Ok (Some p) st' ->
  forall q, q ∈ readyqueue st' ->
    (remaining (procs st' p) <= remaining (procs st' q))%Z.
Proof.
  unfold srtf_schedule.
  set (key := fun p => remaining (procs st p)).
  destruct (readyqueue st) as [|a l] eqn:Erq.
  - destruct (current st) as [c|]; [|discriminate].
    destruct (is_wait _); [discriminate|].
    destruct (_ <? _)%Z; [|discriminate].
    destruct (_ <? _)%Z; [discriminate|].
    intros [= <- <-] q Hq. rewrite Erq in Hq. inversion Hq.
  - rewrite <- Erq.
    set (min := scan_min key (readyqueue st) sentinel).
    assert (forall n s, detach (scan_eq key min (readyqueue st)) st = Ok (Some n) s ->
              forall q, q ∈ readyqueue s ->
                (remaining (procs s n) <= remaining (procs s q))%Z) as Hpick.
    { intros n s Hd q Hq.
      destruct (scan_eq key min (readyqueue st)) as [|n'|] eqn:E; try discriminate.
      cbn in Hd. injection Hd as <- <-. cbn in Hq |- *.
      apply list_del_init_subset in Hq.
      apply scan_eq_entry in E as (_ & _ & _ & Hn & _).
      change (key n' <= key q)%Z. rewrite Hn. now apply scan_min_lower. }
    destruct (current st) as [c|]; [|apply Hpick].
    destruct (is_wait _); [apply Hpick|].
    destruct (_ <? _)%Z; [|apply Hpick].
    destruct (Z.ltb_spec min (remaining (procs st c))) as [Hlt|Hge].
    + cbn [readyqueue with_readyqueue]. rewrite Erq at 1. cbn [list_add_tail app].
      destruct (scan_eq key min (readyqueue st)) as [|n|] eqn:E; try discriminate.
      cbn. intros [= <- <-] q Hq. cbn in Hq |- *.
      apply scan_eq_entry in E as (_ & _ & _ & Hn & _).
      change (key n <= key q)%Z. rewrite Hn.
      apply list_del_init_subset, elem_of_app in Hq as [Hq|Hq].
      * now apply scan_min_lower.
      * apply list_elem_of_singleton in Hq as ->. unfold key at 1. lia.
    + intros [= <- <-] q Hq.
      pose proof (scan_min_lower key _ sentinel q Hq) as Hlow.
      fold min in Hlow. unfold key in Hlow. lia.
Qed.

Lemma srtf_schedule_rule st c :
  current st = Some c ->
  status (procs st c) <> PROCESS_WAIT ->
  (age (procs st c) < lifespan (procs st c))%Z ->
  (remaining (procs st c) <= sentinel)%Z \/
  (exists p, p ∈ readyqueue st /\ (remaining (procs st p) <= sentinel)%Z) ->
  srtf_rule st c.
Proof.
  intros Hc Hs Hlife Hbound. unfold srtf_rule, srtf_schedule. rewrite Hc.
  apply is_wait_false in Hs. rewrite Hs.
  apply Z.ltb_lt in Hlife. rewrite Hlife.
  set (key := fun p => remaining (procs st p)).
  change (remaining (procs st c)) with (key c) in *.
  set (min := scan_min key (readyqueue st) sentinel).
  pose proof (scan_min_init key (readyqueue st) sentinel) as Hinit. fold min in Hinit.
  destruct (Z.ltb_spec min (key c)) as [Hlt|Hge].
  - right.
    assert (exists x, x ∈ readyqueue st /\ key x = min) as (x & Hx & Ex).
    { destruct (scan_min_attained key (readyqueue st) sentinel) as [E|H];
        [|exact H]. fold min in E.
      destruct Hbound as [Hb|(p & Hp & Hb)]; [lia|].
      exists p. split; [exact Hp|].
      pose proof (scan_min_lower key _ sentinel p Hp) as Hlow. fold min in Hlow.
      change (remaining (procs st p)) with (key p) in Hb. lia. }
    destruct (scan_eq key min (readyqueue st)) as [|n|] eqn:E.
    + now apply scan_eq_not_null in E.
    + pose proof (scan_min_first _ _ _ _ E) as (l1 & l2 & Eq & Hl1 & Hl2).
      apply scan_eq_entry in E as (_ & _ & _ & Hn & _).
      exists l1, n, l2. repeat split; try assumption.
      { change (key n < key c)%Z. lia. }
      cbn [readyqueue with_readyqueue]. unfold list_add_tail.
      destruct (readyqueue st) as [|b k] eqn:Ek; [now destruct l1|].
      cbn [app]. unfold detach, with_readyqueue.
      cbn [readyqueue current resources procs]. do 2 f_equal.
      change (b :: k ++ [c]) with ((b :: k) ++ [c]).
      rewrite Eq, <- app_assoc. cbn. apply list_del_init_middle.
      intros Hin. specialize (Hl1 n Hin). lia.
    + exfalso. now apply (proj1 (scan_eq_stray _ _ _) E x).
  - left. split; [|reflexivity].
    intros p Hp. pose proof (scan_min_lower key _ sentinel p Hp) as Hlow.
    fold min in Hlow. change (key c <= key p)%Z. lia.
Qed.


(** With a ready process whose remaining time is larger still, the scan
    for the minimum runs off the ready queue. *)
Example srtf_sentinel_stray :
  Z.lt (remaining (procs marathon_pair_state 0))
       (remaining (procs marathon_pair_state 1)) /\
  srtf_schedule marathon_pair_state = Fault StrayEntry.
Proof. split; reflexivity. Qed.

(** X22: whenever [srtf_schedule] returns a process, its remaining time
    is less than or equal to that of every process left on the ready
    queue.  A running process with remaining lifetime, provided
    its remaining time or that of some ready process is at most 100000, is
    appended to the tail of the ready queue and replaced by the first ready
    process of minimal remaining time exactly when some ready process has a
    strictly smaller remaining time; otherwise (ties included) the running
    process is returned and the state is unchanged. *)
Theorem srtf_shortest_remaining st :
  (forall p st', srtf_schedule st = Ok (Some p) st' ->
     forall q, q ∈ readyqueue st' ->
       (remaining (procs st' p) <= remaining (procs st' q))%Z) /\
  (forall c,
     current st = Some c ->
     status (procs st c) <> PROCESS_WAIT ->
     (age (procs st c) < lifespan (procs st c))%Z ->
     (remaining (procs st c) <= sentinel)%Z \/
     (exists p, p ∈ readyqueue st /\ (remaining (procs st p) <= sentinel)%Z) ->
     srtf_rule st c).
Proof.
  split.
  - apply srtf_returned_minimal.
  - apply srtf_schedule_rule.
Qed.

(** The rule on [sprint_state]: process 2, the first of the two ready
    processes with 2 ticks left, replaces the running process. *)
Lemma srtf_shortest_remaining_witness :
  srtf_rule sprint_state 0 /\
  srtf_schedule sprint_state
  = Ok (Some 2) (with_readyqueue [1; 3; 0] sprint_state) /\
  Forall (fun q => Z.le (remaining (procs sprint_state 2))
                        (remaining (procs sprint_state q))) [1; 3; 0].
Proof.
  destruct (srtf_shortest_remaining sprint_state) as [Hmin Hrule].
  split; [|split].
  - apply (Hrule 0%nat).
    + reflexivity.
    + discriminate.
    + cbn. lia.
    + left. vm_compute. discriminate.
  - reflexivity.
  - apply Forall_forall. intros q Hq.
    apply (Hmin 2%nat (with_readyqueue [1; 3; 0] sprint_state) eq_refl q Hq).
Defined.

(** ** Round-Robin *)




(** * Further properties of the callbacks *)

(** ** What no schedule function does *)

Lemma sched_shape_frame st ret st' :
  sched_shape st (Ok ret st') ->
  procs st' = procs st /\ resources st' = resources st /\
  current st' = current st.
Proof. intros H. inversion H; repeat split. Qed.

(** X1: a schedule function of any of the six policies only relinks the
    ready queue: it writes no process field, no resource and not the
    current-process pointer. *)
Theorem schedule_touches_only_readyqueue pol st ret st' :
  schedule_of pol st = Ok ret st' ->
  procs st' = procs st /\ resources st' = resources st /\
  current st' = current st.
Proof.
  intros H. apply (sched_shape_frame st ret st').
  rewrite <- H. apply schedule_of_shape.
Qed.

(** The frame on the SRTF preemption of [sprint_state]. *)
Lemma schedule_touches_only_readyqueue_witness :
  procs (with_readyqueue [1; 3; 0] sprint_state) = procs sprint_state /\
  resources (with_readyqueue [1; 3; 0] sprint_state) = resources sprint_state /\
  current (with_readyqueue [1; 3; 0] sprint_state) = current sprint_state.
Proof.
  apply (schedule_touches_only_readyqueue SRTF sprint_state (Some 2)).
  reflexivity.
Defined.

(** X2: the schedule functions never lose or duplicate a ready process.
    When one returns process [n], either [n] is the current process and
    the state is unchanged, or the ready queue with [n] put back is a
    permutation of the old ready queue, or of the old ready queue together
    with the current process, which was appended to it. *)
Theorem schedule_conserves_ready pol st n st' :
  schedule_of pol st = Ok (Some n) st' ->
  (current st = Some n /\ st' = st) \/
  n :: readyqueue st' ≡ₚ readyqueue st \/
  (exists c, current st = Some c /\
             n :: readyqueue st' ≡ₚ c :: readyqueue st).
Proof.
  intros H. pose proof (schedule_of_shape pol st) as Hs. rewrite H in Hs.
  inversion Hs; subst.
  - left. split; [assumption | reflexivity].
  - right. left. cbn. symmetry. now apply list_del_init_perm.
  - right. right. exists c. split; [assumption|]. cbn.
    rewrite <- list_del_init_perm.
    + unfold list_add_tail. symmetry. apply Permutation_cons_append.
    + apply elem_of_app. now left.
Qed.

(** Conservation on the Round-Robin decision of [busy_state]. *)
Lemma schedule_conserves_ready_witness :
  (current busy_state = Some 1 /\ with_readyqueue [0] busy_state = busy_state) \/
  1 :: [0] ≡ₚ [1] \/
  (exists c, current busy_state = Some c /\ 1 :: [0] ≡ₚ c :: [1]).
Proof.
  apply (schedule_conserves_ready RR busy_state 1 (with_readyqueue [0] busy_state)).
  reflexivity.
Defined.

Ltac sched_cases :=
  repeat match goal with
    | |- context [match current ?st with _ => _ end] =>
        destruct (current st) eqn:?
    | |- context [match readyqueue ?st with _ => _ end] =>
        destruct (readyqueue st) eqn:?
    | |- context [if ?b then _ else _] =>
        lazymatch type of b with bool => destruct b eqn:? end
    | |- context [match scan_eq ?k ?m ?q with _ => _ end] =>
        destruct (scan_eq k m q) eqn:?
    | |- context [detach ?c _] => unfold detach
    | |- context [return_cursor ?c _] => unfold return_cursor
    end.

Lemma schedule_idle_inv pol st st' :
  schedule_of pol st = Ok None st' -> readyqueue st = [] /\ st' = st.
Proof.
  destruct pol; cbn [schedule_of];
    [unfold fifo_schedule | unfold sjf_schedule | unfold srtf_schedule
    | unfold rr_schedule | unfold prio_schedule | unfold pip_schedule];
    cbn [readyqueue with_readyqueue list_add_tail];
    sched_cases; cbn [readyqueue with_readyqueue app] in *;
    try discriminate; intros [= <-]; try (split; [assumption | reflexivity]);
    try (split; reflexivity).
Qed.

Lemma schedule_idle_runner pol st st' c :
  schedule_of pol st = Ok None st' ->
  current st = Some c ->
  status (procs st c) = PROCESS_WAIT \/
  ~ (age (procs st c) < lifespan (procs st c))%Z.
Proof.
  intros H Hc.
  destruct (is_wait (status (procs st c))) eqn:Ew;
    [left; now apply is_wait_true|].
  destruct (Z.ltb_spec (age (procs st c)) (lifespan (procs st c))) as [Hlt|Hge];
    [|right; lia].
  exfalso. revert H.
  assert ((age (procs st c) =? lifespan (procs st c))%Z = false) as Hne
    by (apply Z.eqb_neq; lia).
  apply Z.ltb_lt in Hlt.
  destruct pol; cbn [schedule_of];
    [unfold fifo_schedule | unfold sjf_schedule | unfold srtf_schedule
    | unfold rr_schedule | unfold prio_schedule | unfold pip_schedule];
    rewrite Hc, Ew, ?Hne, ?Hlt; cbn [orb readyqueue with_readyqueue list_add_tail];
    sched_cases; cbn [readyqueue with_readyqueue app] in *; discriminate.
Qed.

(** X3: the schedule functions are work conserving.  One that reports an
    idle system (returns no process) was called with an empty ready queue
    and with no current process that could go on (none at all, a blocked
    one, or one without remaining lifetime), and it leaves the state as it
    was. *)
Theorem schedule_idle_only_when_nothing_runnable pol st st' :
  schedule_of pol st = Ok None st' ->
  readyqueue st = [] /\ st' = st /\
  forall c, current st = Some c ->
    status (procs st c) = PROCESS_WAIT \/
    ~ (age (procs st c) < lifespan (procs st c))%Z.
Proof.
  intros H. destruct (schedule_idle_inv pol st st' H) as [Hq He].
  split; [exact Hq|]. split; [exact He|].
  intros c Hc. apply (schedule_idle_runner pol st st' c H Hc).
Qed.

(** The SRTF scheduler on a finished process and an empty ready queue. *)
Lemma schedule_idle_only_when_nothing_runnable_witness :
  readyqueue drained_state = [] /\ drained_state = drained_state /\
  forall c, current drained_state = Some c ->
    status (procs drained_state c) = PROCESS_WAIT \/
    ~ (age (procs drained_state c) < lifespan (procs drained_state c))%Z.
Proof.
  apply (schedule_idle_only_when_nothing_runnable SRTF drained_state).
  reflexivity.
Defined.

(** ** Picking a process when the processor is free *)

Lemma no_runner_guard st c :
  no_runner st -> current st = Some c ->
  is_wait (status (procs st c))
  || (age (procs st c) =? lifespan (procs st c))%Z = true.
Proof.
  intros Hno Hc. destruct (Hno c Hc) as [Hw|He].
  - apply is_wait_true in Hw. now rewrite Hw.
  - apply Z.eqb_eq in He. rewrite He. apply orb_true_r.
Qed.

Lemma no_runner_lifetime st c :
  no_runner st -> current st = Some c ->
  is_wait (status (procs st c)) = true \/
  (age (procs st c) <? lifespan (procs st c))%Z = false.
Proof.
  intros Hno Hc. destruct (Hno c Hc) as [Hw|He].
  - left. now apply is_wait_true.
  - right. apply Z.ltb_ge. lia.
Qed.

(** Unlinking the entry the second loop stopped on. *)
Lemma detach_entry st key m n l1 l2 :
  readyqueue st = l1 ++ n :: l2 ->
  key n = m ->
  (forall x, x ∈ l1 -> key x <> m) ->
  detach (scan_eq key m (readyqueue st)) st
  = Ok (Some n) (with_readyqueue (l1 ++ l2) st).
Proof.
  intros Eq Hn Hl1.
  assert (scan_eq key m (readyqueue st) = Entry n) as ->
    by (apply scan_eq_entry; exists l1, l2; auto).
  unfold detach. rewrite Eq. rewrite list_del_init_middle; [reflexivity|].
  intros Hin. now apply (Hl1 n Hin).
Qed.

Lemma pick_first_max st key a l :
  readyqueue st = a :: l ->
  exists l1 n l2,
    readyqueue st = l1 ++ n :: l2 /\
    (forall x, x ∈ l1 -> (key x < key n)%Z) /\
    (forall x, x ∈ l2 -> (key x <= key n)%Z) /\
    detach (scan_eq key (scan_max key (readyqueue st) (key a)) (readyqueue st)) st
    = Ok (Some n) (with_readyqueue (l1 ++ l2) st).
Proof.
  intros Erq. destruct (scan_max_entry key a l) as (n & Hn).
  rewrite <- Erq in Hn.
  pose proof (scan_max_first _ _ _ _ Hn) as (l1 & l2 & Eq & Hlt & Hle).
  exists l1, n, l2. repeat split; try assumption.
  apply scan_eq_entry in Hn as (_ & _ & _ & Hk & _).
  apply (detach_entry st key _ n l1 l2 Eq Hk).
  intros x Hx. specialize (Hlt x Hx). lia.
Qed.

Lemma pick_first_min st key :
  (exists p, p ∈ readyqueue st /\ (key p <= sentinel)%Z) ->
  exists l1 n l2,
    readyqueue st = l1 ++ n :: l2 /\
    (forall x, x ∈ l1 -> (key n < key x)%Z) /\
    (forall x, x ∈ l2 -> (key n <= key x)%Z) /\
    detach (scan_eq key (scan_min key (readyqueue st) sentinel) (readyqueue st)) st
    = Ok (Some n) (with_readyqueue (l1 ++ l2) st).
Proof.
  intros (p & Hp & Hb).
  set (min := scan_min key (readyqueue st) sentinel).
  assert (exists x, x ∈ readyqueue st /\ key x = min) as (x & Hx & Ex).
  { destruct (scan_min_attained key (readyqueue st) sentinel) as [E|H]; [|exact H].
    exists p. split; [exact Hp|].
    pose proof (scan_min_lower key _ sentinel p Hp) as Hlow. fold min in E, Hlow. lia. }
  destruct (scan_eq_cases key min (readyqueue st)) as [(n & Hn)|Hs].
  - pose proof (scan_min_first _ _ _ _ Hn) as (l1 & l2 & Eq & Hlt & Hle).
    exists l1, n, l2. repeat split; try assumption.
    apply scan_eq_entry in Hn as (_ & _ & _ & Hk & _).
    apply (detach_entry st key _ n l1 l2 Eq Hk).
    intros y Hy. specialize (Hlt y Hy). fold min in Hk. lia.
  - exfalso. now apply (proj1 (scan_eq_stray _ _ _) Hs x).
Qed.

(** When every key exceeds the initial minimum, the minimum stays where
    it started and the second loop finds no entry. *)
Lemma scan_min_beyond key q m0 :
  (forall x, x ∈ q -> (m0 < key x)%Z) ->
  scan_min key q m0 = m0 /\ scan_eq key m0 q = Stray.
Proof.
  intros Hq. split.
  - induction q as [|p q IH]; [reflexivity|]. rewrite scan_min_cons.
    pose proof (Hq p (list_elem_of_here _ _)) as Hp.
    destruct (Z.ltb_spec (key p) m0); [lia|].
    apply IH. intros x Hx. apply Hq. now apply list_elem_of_further.
  - apply scan_eq_stray. intros x Hx. specialize (Hq x Hx). lia.
Qed.

(** X4: with no running process to keep and a non-empty ready queue, the
    Priority scheduler dispatches the first ready process of maximal
    [prio_orig] and the Priority-Inheritance scheduler the first ready
    process of maximal [prio]: the chosen process is unlinked, the others
    keep their order, and neither function fails. *)
Theorem priority_pick_first_max st :
  no_runner st ->
  readyqueue st <> [] ->
  dispatches_first_max prio_schedule prio_orig st /\
  dispatches_first_max pip_schedule prio st.
Proof.
  intros Hno Hrq.
  assert (forall field, dispatches_first_max (priority_schedule field) field st)
    as Hgen.
  { intros field. unfold dispatches_first_max, priority_schedule.
    destruct (readyqueue st) as [|a l] eqn:Erq; [contradiction|].
    rewrite <- Erq.
    destruct (current st) as [c|] eqn:Hc.
    - rewrite (no_runner_guard st c Hno Hc).
      apply (pick_first_max st (fun p => field (procs st p)) a l Erq).
    - apply (pick_first_max st (fun p => field (procs st p)) a l Erq). }
  split; [apply (Hgen prio_orig) | apply (Hgen prio)].
Qed.

(** On [arrivals_state] both schedulers take process 2, the first of the
    two ready processes of priority 3. *)
Lemma priority_pick_first_max_witness :
  dispatches_first_max prio_schedule prio_orig arrivals_state /\
  dispatches_first_max pip_schedule prio arrivals_state.
Proof.
  apply (priority_pick_first_max arrivals_state).
  - intros c Hc. discriminate.
  - discriminate.
Defined.

(** X5: with no running process to keep and some ready process whose
    lifespan is at most 100000, [sjf_schedule] dispatches the first ready
    process of minimal lifespan; the others keep their order. *)
Theorem sjf_pick_first_min st :
  no_runner st ->
  (exists p, p ∈ readyqueue st /\ (lifespan (procs st p) <= sentinel)%Z) ->
  dispatches_first_min sjf_schedule lifespan st.
Proof.
  intros Hno Hb. unfold dispatches_first_min, sjf_schedule.
  pose proof (pick_first_min st (fun p => lifespan (procs st p)) Hb) as Hpick.
  destruct (readyqueue st) as [|a l] eqn:Erq.
  { destruct Hb as (p & Hp & _). inversion Hp. }
  rewrite <- Erq in *.
  destruct (current st) as [c|] eqn:Hc; [|exact Hpick].
  destruct (no_runner_lifetime st c Hno Hc) as [-> | Hl]; [exact Hpick|].
  rewrite Hl. destruct (is_wait _); exact Hpick.
Qed.

(** On [arrivals_state] the job picked is process 2, the first of the two
    ready jobs of lifespan 2. *)
Lemma sjf_pick_first_min_witness :
  dispatches_first_min sjf_schedule lifespan arrivals_state.
Proof.
  apply (sjf_pick_first_min arrivals_state).
  - intros c Hc. discriminate.
  - exists 2%nat. split.
    + apply (bool_decide_unpack _). vm_compute. exact I.
    + vm_compute. discriminate.
Defined.

(** X6: with no running process to keep and some ready process whose
    remaining time is at most 100000, [srtf_schedule] dispatches the first
    ready process of minimal remaining time; the others keep their
    order. *)
Theorem srtf_pick_first_min st :
  no_runner st ->
  (exists p, p ∈ readyqueue st /\ (remaining (procs st p) <= sentinel)%Z) ->
  dispatches_first_min srtf_schedule remaining st.
Proof.
  intros Hno Hb. unfold dispatches_first_min, srtf_schedule.
  pose proof (pick_first_min st (fun p => remaining (procs st p)) Hb) as Hpick.
  revert Hpick. destruct (readyqueue st) as [|a l] eqn:Erq; intros Hpick.
  { destruct Hb as (p & Hp & _). inversion Hp. }
  destruct (current st) as [c|] eqn:Hc; [|exact Hpick].
  destruct (no_runner_lifetime st c Hno Hc) as [-> | Hl]; [exact Hpick|].
  rewrite Hl. destruct (is_wait _); exact Hpick.
Qed.

(** With nothing run yet, remaining times are lifespans: process 2
    again. *)
Lemma srtf_pick_first_min_witness :
  dispatches_first_min srtf_schedule remaining arrivals_state.
Proof.
  apply (srtf_pick_first_min arrivals_state).
  - intros c Hc. discriminate.
  - exists 2%nat. split.
    + apply (bool_decide_unpack _). vm_compute. exact I.
    + vm_compute. discriminate.
Defined.

(** X7: the shortest-first schedulers cannot pick among long jobs.  With
    no running process to keep and a non-empty ready queue, [sjf_schedule]
    fails when every ready lifespan exceeds 100000, and [srtf_schedule]
    when every ready remaining time does: the minimum stays at its
    initial value, the second loop runs off the ready queue, and the
    cursor that is unlinked and returned is no process. *)
Theorem shortest_first_strays_beyond_sentinel st :
  no_runner st ->
  readyqueue st <> [] ->
  ((forall p, p ∈ readyqueue st -> (sentinel < lifespan (procs st p))%Z) ->
   sjf_schedule st = Fault StrayEntry) /\
  ((forall p, p ∈ readyqueue st -> (sentinel < remaining (procs st p))%Z) ->
   srtf_schedule st = Fault StrayEntry).
Proof.
  intros Hno Hrq.
  assert (forall key,
            (forall p, p ∈ readyqueue st -> (sentinel < key p)%Z) ->
            detach (scan_eq key (scan_min key (readyqueue st) sentinel)
                      (readyqueue st)) st = Fault StrayEntry) as Hstray.
  { intros key Hall.
    destruct (scan_min_beyond key (readyqueue st) sentinel Hall) as [-> ->].
    reflexivity. }
  split; intros Hall.
  - specialize (Hstray _ Hall). unfold sjf_schedule.
    destruct (readyqueue st) as [|a l] eqn:Erq; [contradiction|].
    rewrite <- Erq in *.
    destruct (current st) as [c|] eqn:Hc; [|exact Hstray].
    destruct (no_runner_lifetime st c Hno Hc) as [-> | Hl]; [exact Hstray|].
    rewrite Hl. destruct (is_wait _); exact Hstray.
  - specialize (Hstray _ Hall). unfold srtf_schedule.
    revert Hstray. destruct (readyqueue st) as [|a l] eqn:Erq; intros Hstray;
      [contradiction|].
    destruct (current st) as [c|] eqn:Hc; [|exact Hstray].
    destruct (no_runner_lifetime st c Hno Hc) as [-> | Hl]; [exact Hstray|].
    rewrite Hl. destruct (is_wait _); exact Hstray.
Qed.

(** Two jobs of 100002 and 100001 ticks. *)
Lemma shortest_first_strays_beyond_sentinel_witness :
  sjf_schedule long_jobs_state = Fault StrayEntry /\
  srtf_schedule long_jobs_state = Fault StrayEntry.
Proof.
  assert (no_runner long_jobs_state) as Hno by (intros c Hc; discriminate).
  assert (readyqueue long_jobs_state <> []) as Hrq by discriminate.
  destruct (shortest_first_strays_beyond_sentinel long_jobs_state Hno Hrq)
    as [Hsjf Hsrtf].
  split; [apply Hsjf | apply Hsrtf]; intros p Hp;
    apply elem_of_cons in Hp as [->|Hp];
    try (apply list_elem_of_singleton in Hp as ->); vm_compute; reflexivity.
Defined.

(** ** Policies without preemption *)

Lemma keep_running pol st c :
  pol = FIFO \/ pol = SJF ->
  current st = Some c ->
  status (procs st c) <> PROCESS_WAIT ->
  (age (procs st c) < lifespan (procs st c))%Z ->
  schedule_of pol st = Ok (Some c) st.
Proof.
  intros Hpol Hc Hs Hlt. apply is_wait_false in Hs. apply Z.ltb_lt in Hlt.
  destruct Hpol as [-> | ->]; cbn [schedule_of];
    [unfold fifo_schedule | unfold sjf_schedule]; now rewrite Hc, Hs, Hlt.
Qed.

(** [n] ticks of a process that has at least [n] ticks left, under a
    policy that keeps the running process as long as [I] holds, where [I]
    survives the ageing of the running process. *)
Lemma keep_ticks_when pol (I : state -> pid -> Prop) :
  (forall st c, I st c -> current st = Some c ->
     status (procs st c) <> PROCESS_WAIT ->
     (0 <= age (procs st c) < lifespan (procs st c))%Z ->
     (lifespan (procs st c) < 2 ^ 32)%Z ->
     schedule_of pol st = Ok (Some c) st /\ I (aged c st) c) ->
  forall n st c,
  I st c ->
  current st = Some c ->
  status (procs st c) <> PROCESS_WAIT ->
  (0 <= age (procs st c))%Z ->
  (age (procs st c) + Z.of_nat n <= lifespan (procs st c))%Z ->
  (lifespan (procs st c) < 2 ^ 32)%Z ->
  exists st',
    ticks pol n st = Ok (replicate n (Some c)) st' /\
    current st' = Some c /\
    readyqueue st' = readyqueue st /\
    resources st' = resources st /\
    age (procs st' c) = (age (procs st c) + Z.of_nat n)%Z /\
    lifespan (procs st' c) = lifespan (procs st c) /\
    status (procs st' c) = status (procs st c) /\
    forall q, q <> c -> procs st' q = procs st q.
Proof.
  intros Hkeep. induction n as [|n IH]; intros st c HI Hc Hs H0 Hn Hmax.
  - exists st. cbn [ticks replicate]. repeat split; try assumption.
    cbn. lia.
  - destruct (Hkeep st c HI Hc Hs ltac:(lia) Hmax) as [Hsched HI'].
    assert (tick pol st = Ok (Some c) (aged c st)) as Htick
      by (unfold tick; now rewrite Hsched).
    assert (age (procs (aged c st) c) = age (procs st c) + 1)%Z as Hage.
    { unfold aged. cbn. rewrite upd_proc_same. cbn. unfold wrap.
      apply Z.mod_small. lia. }
    assert (lifespan (procs (aged c st) c) = lifespan (procs st c)) as Hlife
      by (unfold aged; cbn; now rewrite upd_proc_same).
    assert (status (procs (aged c st) c) = status (procs st c)) as Hstat
      by (unfold aged; cbn; now rewrite upd_proc_same).
    destruct (IH (aged c st) c HI' eq_refl)
      as (st' & Ht & H1 & H2 & H3 & H4 & H5 & H6 & H7).
    + now rewrite Hstat.
    + lia.
    + lia.
    + lia.
    + exists st'. cbn [ticks replicate]. rewrite Htick, Ht.
      repeat split; try assumption.
      * lia.
      * congruence.
      * congruence.
      * intros q Hq. rewrite (H7 q Hq). unfold aged. cbn.
        now rewrite upd_proc_other.
Qed.

(** [n] ticks of a process that has at least [n] ticks left. *)
Lemma keep_ticks pol n : forall st c,
  pol = FIFO \/ pol = SJF ->
  current st = Some c ->
  status (procs st c) <> PROCESS_WAIT ->
  (0 <= age (procs st c))%Z ->
  (age (procs st c) + Z.of_nat n <= lifespan (procs st c))%Z ->
  (lifespan (procs st c) < 2 ^ 32)%Z ->
  exists st',
    ticks pol n st = Ok (replicate n (Some c)) st' /\
    current st' = Some c /\
    readyqueue st' = readyqueue st /\
    resources st' = resources st /\
    age (procs st' c) = (age (procs st c) + Z.of_nat n)%Z /\
    lifespan (procs st' c) = lifespan (procs st c) /\
    status (procs st' c) = status (procs st c) /\
    forall q, q <> c -> procs st' q = procs st q.
Proof.
  intros st c Hpol.
  apply (keep_ticks_when pol (fun _ _ => True)); [|exact I].
  intros s d _ Hd Hs Hage _. split; [|exact I].
  apply (keep_running pol s d Hpol Hd Hs). lia.
Qed.

(** X8: FIFO and SJF do not preempt.  With the tick driver of the spec, a
    current process that is not blocked and has [n] ticks or more left is
    the one dispatched at each of the next [n] ticks, whatever is on the
    ready queue; the ready queue and the resources are not touched, and
    only the age of that process changes, by [n]. *)
Theorem nonpreemptive_runs_to_completion pol n st c :
  pol = FIFO \/ pol = SJF ->
  current st = Some c ->
  status (procs st c) <> PROCESS_WAIT ->
  (0 <= age (procs st c))%Z ->
  (age (procs st c) + Z.of_nat n <= lifespan (procs st c))%Z ->
  (lifespan (procs st c) < 2 ^ 32)%Z ->
  exists st',
    ticks pol n st = Ok (replicate n (Some c)) st' /\
    current st' = Some c /\
    readyqueue st' = readyqueue st /\
    resources st' = resources st /\
    age (procs st' c) = (age (procs st c) + Z.of_nat n)%Z /\
    forall q, q <> c -> procs st' q = procs st q.
Proof.
  intros Hpol Hc Hs H0 Hn Hmax.
  destruct (keep_ticks pol n st c Hpol Hc Hs H0 Hn Hmax)
    as (st' & Ht & H1 & H2 & H3 & H4 & _ & _ & H7).
  exists st'. repeat split; assumption.
Qed.

(** Under SJF the running process of [sprint_state] keeps the processor
    for its four remaining ticks although shorter jobs are ready. *)
Lemma nonpreemptive_runs_to_completion_witness :
  exists st',
    ticks SJF 4 sprint_state = Ok [Some 0; Some 0; Some 0; Some 0] st' /\
    readyqueue st' = [1; 2; 3] /\
    age (procs st' 0) = 5%Z.
Proof.
  destruct (nonpreemptive_runs_to_completion SJF 4 sprint_state 0)
    as (st' & Ht & _ & H2 & _ & H4 & _).
  - now right.
  - reflexivity.
  - discriminate.
  - vm_compute. discriminate.
  - vm_compute. discriminate.
  - vm_compute. reflexivity.
  - exists st'. split; [exact Ht|]. split; [exact H2 | exact H4].
Defined.

(** X9: FIFO serves in arrival order and to completion.  With no running
    process to keep, the head of the ready queue is dispatched at the next
    tick and, ticks being counted by the driver of the spec, at every tick
    after it for as long as it has lifetime left; the processes behind it
    stay on the ready queue in their order. *)
Theorem fifo_serves_head_to_completion n st h t :
  no_runner st ->
  readyqueue st = h :: t ->
  status (procs st h) <> PROCESS_WAIT ->
  (0 <= age (procs st h))%Z ->
  (age (procs st h) + Z.of_nat (S n) <= lifespan (procs st h))%Z ->
  (lifespan (procs st h) < 2 ^ 32)%Z ->
  exists st',
    ticks FIFO (S n) st = Ok (replicate (S n) (Some h)) st' /\
    current st' = Some h /\
    readyqueue st' = t /\
    age (procs st' h) = (age (procs st h) + Z.of_nat (S n))%Z.
Proof.
  intros Hno Hrq Hs H0 Hn Hmax.
  set (st1 := with_procs
                (upd_proc h (fun P => set_age (wrap (age P + 1)) P) (procs st))
                (with_current (Some h) (with_readyqueue t st))).
  assert (tick FIFO st = Ok (Some h) st1) as Htick.
  { unfold tick. cbn [schedule_of]. unfold fifo_schedule.
    assert (detach (Entry h) st = Ok (Some h) (with_readyqueue t st)) as Hd
      by (unfold detach; now rewrite Hrq, list_del_init_head).
    rewrite Hrq. destruct (current st) as [c|] eqn:Hc.
    - destruct (no_runner_lifetime st c Hno Hc) as [-> | Hl].
      + now rewrite Hd.
      + rewrite Hl. destruct (is_wait _); now rewrite Hd.
    - now rewrite Hd. }
  assert (age (procs st1 h) = age (procs st h) + 1)%Z as Hage.
  { unfold st1. cbn. rewrite upd_proc_same. cbn. unfold wrap.
    apply Z.mod_small. lia. }
  assert (lifespan (procs st1 h) = lifespan (procs st h)) as Hlife
    by (unfold st1; cbn; now rewrite upd_proc_same).
  assert (status (procs st1 h) = status (procs st h)) as Hstat
    by (unfold st1; cbn; now rewrite upd_proc_same).
  destruct (keep_ticks FIFO n st1 h (or_introl eq_refl) eq_refl)
    as (st' & Ht & H1 & H2 & _ & H4 & _).
  - now rewrite Hstat.
  - lia.
  - lia.
  - lia.
  - exists st'. cbn [ticks]. rewrite Htick, Ht. cbn [replicate].
    repeat split; try assumption. lia.
Qed.

(** The first four ticks on [arrivals_state] all go to process 1. *)
Lemma fifo_serves_head_to_completion_witness :
  exists st',
    ticks FIFO 4 arrivals_state = Ok [Some 1; Some 1; Some 1; Some 1] st' /\
    current st' = Some 1 /\
    readyqueue st' = [2; 3] /\
    age (procs st' 1) = 4%Z.
Proof.
  apply (fifo_serves_head_to_completion 3 arrivals_state 1 [2; 3]).
  - intros c Hc. discriminate.
  - reflexivity.
  - discriminate.
  - vm_compute. discriminate.
  - vm_compute. discriminate.
  - vm_compute. reflexivity.
Defined.

(** ** Schedulers that cannot fail *)

Lemma priority_schedule_total field st :
  exists ret st', priority_schedule field st = Ok ret st'.
Proof.
  unfold priority_schedule.
  assert (forall a l, readyqueue st = a :: l ->
            exists ret st',
              detach (scan_eq (fun p => field (procs st p))
                        (scan_max (fun p => field (procs st p)) (readyqueue st)
                           (field (procs st a))) (readyqueue st)) st
              = Ok ret st') as Hpick.
  { intros a l Erq.
    destruct (pick_first_max st (fun p => field (procs st p)) a l Erq)
      as (l1 & n & l2 & _ & _ & _ & Hd).
    rewrite Hd. eauto. }
  destruct (current st) as [c|].
  - destruct (_ || _).
    + destruct (readyqueue st) as [|a l] eqn:Erq; [eauto|].
      apply (Hpick a l eq_refl).
    + destruct (readyqueue st) as [|a l] eqn:Erq.
      * destruct (_ <? _)%Z; eauto.
      * destruct (scan_eq _ _ _); eauto.
  - destruct (readyqueue st) as [|a l] eqn:Erq; [eauto|].
    apply (Hpick a l eq_refl).
Qed.

(** X10: the FIFO, Round-Robin, Priority and Priority-Inheritance
    schedule functions return on every state: they never unlink a [NULL]
    or stray cursor (unlike SJF and SRTF, whose scans start from the
    constant 100000). *)
Theorem schedulers_without_sentinel_never_fail pol st :
  pol <> SJF -> pol <> SRTF ->
  exists ret st', schedule_of pol st = Ok ret st'.
Proof.
  intros Hsjf Hsrtf. destruct pol; try contradiction; cbn [schedule_of].
  - unfold fifo_schedule. sched_cases; eauto.
  - unfold rr_schedule. cbn [readyqueue with_readyqueue list_add_tail].
    sched_cases; cbn [readyqueue with_readyqueue app] in *; eauto;
      try discriminate.
  - rewrite prio_schedule_unfold. apply priority_schedule_total.
  - rewrite pip_schedule_unfold. apply priority_schedule_total.
Qed.

(** The Priority scheduler on the long jobs that defeat SJF and SRTF. *)
Lemma schedulers_without_sentinel_never_fail_witness :
  exists ret st', schedule_of PRIO long_jobs_state = Ok ret st'.
Proof.
  apply (schedulers_without_sentinel_never_fail PRIO long_jobs_state);
    discriminate.
Defined.

(** ** The resource protocol under every policy *)

Lemma fcfs_release_effect rid st st' :
  fcfs_release rid st = Ok tt st' -> release_effect rid st st'.
Proof.
  unfold fcfs_release, wake, release_effect.
  destruct (resources st !! rid) as [r|] eqn:Hr; [|discriminate].
  destruct (decide (owner r = current st)) as [Ho|]; [|discriminate].
  destruct (waitqueue r) as [|w ws] eqn:Hq.
  - intros [= <-]. exists r. rewrite Hq. repeat split; try assumption.
    left. repeat split.
  - destruct (is_wait _) eqn:Ew; [|discriminate]. intros [= <-].
    exists r. rewrite Hq. repeat split; try assumption. right. exists w.
    cbn. repeat split.
    + apply list_elem_of_here.
    + now apply is_wait_true.
    + now rewrite upd_proc_same.
    + intros q Hne. now rewrite upd_proc_other.
Qed.

Lemma pip_release_effect rid st st' :
  pip_release rid st = Ok tt st' -> release_effect rid st st'.
Proof.
  unfold pip_release, release_effect.
  destruct (resources st !! rid) as [r|] eqn:Hr; [|discriminate].
  destruct (decide (owner r = current st)) as [Ho|]; [|discriminate].
  destruct (owner r) as [o|] eqn:Hown; [|discriminate].
  destruct (waitqueue r) as [|a l] eqn:Hq.
  - intros [= <-]. exists r. rewrite Hq, Hown. repeat split; try assumption.
    left. cbn. repeat split. intros q. now apply (upd_proc_field status).
  - rewrite <- Hq.
    destruct (scan_eq _ _ (waitqueue r)) as [|w|] eqn:E; try discriminate.
    destruct (is_wait _) eqn:Ew; [|discriminate].
    rewrite count_entries_self. intros [= <-].
    exists r. rewrite Hown. repeat split; try assumption. right. exists w.
    cbn. repeat split.
    + eapply scan_eq_elem, E.
    + apply is_wait_true in Ew.
      now rewrite (upd_proc_field status) in Ew by reflexivity.
    + now rewrite upd_proc_same.
    + intros q Hne. rewrite upd_proc_other by exact Hne.
      now apply (upd_proc_field status).
Qed.

(** X11: under every policy a release that returns was called by the
    owner and leaves the resource without owner: ownership is never handed
    to a waiter.  It wakes no one when the wait queue is empty and exactly
    one waiter otherwise: that waiter was in WAIT status, becomes READY,
    leaves the wait queue and joins the tail of the ready queue; the
    status of every other process is unchanged. *)
Theorem release_frees_and_wakes_at_most_one pol rid st st' :
  release_of pol rid st = Ok tt st' -> release_effect rid st st'.
Proof.
  destruct pol; cbn [release_of]; rewrite ?prio_release_fcfs;
    first [apply fcfs_release_effect | apply pip_release_effect].
Qed.

(** The Priority release on [contended_state]. *)
Lemma release_frees_and_wakes_at_most_one_witness :
  release_effect 0 contended_state
    (mkState (Some 0) [1]
       (<[0 := mkResource None [2]]> (resources contended_state))
       (upd_proc 1 (set_status PROCESS_READY) contended_procs)).
Proof.
  apply (release_frees_and_wakes_at_most_one PRIO 0 contended_state).
  reflexivity.
Defined.

Ltac acquire_effect_frame r Hc :=
  exists r; split; [reflexivity|];
  split; [split; intros; congruence|];
  split; [reflexivity|];
  split; [first [reflexivity | exact Hc]|];
  split; [intros j Hj; now apply list_lookup_insert_ne|].

Lemma fcfs_acquire_effect rid st b st' :
  fcfs_acquire rid st = Ok b st' -> acquire_effect rid st b st'.
Proof.
  unfold fcfs_acquire, acquire_effect.
  destruct (resources st !! rid) as [r|] eqn:Hr; [|discriminate].
  pose proof (lookup_lt_Some _ _ _ Hr) as Hlt.
  destruct (owner r) as [o|] eqn:Ho.
  - destruct (current st) as [c|] eqn:Hc; [|discriminate].
    intros [= <- <-]. cbn. acquire_effect_frame r Hc.
    split; [discriminate|]. intros _. exists c.
    split; [reflexivity|].
    split; [rewrite Ho; now apply list_lookup_insert_eq|].
    split; [now rewrite upd_proc_same|].
    intros q Hq. now rewrite upd_proc_other.
  - intros [= <- <-]. cbn. acquire_effect_frame r Hr.
    split; [|discriminate]. intros _.
    split; [reflexivity | now apply list_lookup_insert_eq].
Qed.

Lemma pip_acquire_effect rid st b st' :
  pip_acquire rid st = Ok b st' -> acquire_effect rid st b st'.
Proof.
  unfold pip_acquire, acquire_effect.
  destruct (resources st !! rid) as [r|] eqn:Hr; [|discriminate].
  pose proof (lookup_lt_Some _ _ _ Hr) as Hlt.
  destruct (owner r) as [o|] eqn:Ho.
  - destruct (current st) as [c|] eqn:Hc; [|discriminate].
    intros [= <- <-]. cbn. acquire_effect_frame r Hc.
    split; [discriminate|]. intros _. exists c.
    split; [reflexivity|].
    split; [rewrite Ho; now apply list_lookup_insert_eq|].
    split.
    + destruct (_ <? _)%Z;
        rewrite ?(upd_proc_field status) by reflexivity;
        now rewrite upd_proc_same.
    + intros q Hq.
      destruct (_ <? _)%Z;
        rewrite ?(upd_proc_field status) by reflexivity;
        now rewrite upd_proc_other.
  - intros [= <- <-]. cbn. acquire_effect_frame r Hr.
    split; [|discriminate]. intros _.
    split; [reflexivity | now apply list_lookup_insert_eq].
Qed.

(** X12: under every policy an acquire that returns grants the resource
    exactly when it had no owner.  A grant records the current process as
    owner and changes nothing else; a denial keeps the owner, puts the
    current process in WAIT status and appends it to the tail of the wait
    queue, whatever the priorities.  The ready queue, the current-process
    pointer and every other resource are as before. *)
Theorem acquire_grants_iff_free pol rid st b st' :
  acquire_of pol rid st = Ok b st' -> acquire_effect rid st b st'.
Proof.
  destruct pol; cbn [acquire_of]; rewrite ?prio_acquire_fcfs;
    first [apply fcfs_acquire_effect | apply pip_acquire_effect].
Qed.

(** The denied acquire of [inversion_state] under the inheritance
    protocol. *)
Lemma acquire_grants_iff_free_witness :
  exists st', pip_acquire 0 inversion_state = Ok false st' /\
              acquire_effect 0 inversion_state false st'.
Proof.
  eexists. split; [reflexivity|].
  apply (acquire_grants_iff_free PIP 0 inversion_state). reflexivity.
Defined.

(** X13: acquire followed by release is neutral on a free resource.  When
    the resource has no owner and no waiter, the acquire of the current
    process is granted, its release succeeds at once, and the resource
    table, the ready queue and the current process are as before the
    acquire; the process store is untouched, except that the inheritance
    protocol has reset the caller's priority to its base priority. *)
Theorem acquire_release_round_trip pol rid st c :
  current st = Some c ->
  resources st !! rid = Some (mkResource None []) ->
  exists st1 st2,
    acquire_of pol rid st = Ok true st1 /\
    resources st1 !! rid = Some (mkResource (Some c) []) /\
    release_of pol rid st1 = Ok tt st2 /\
    resources st2 = resources st /\
    readyqueue st2 = readyqueue st /\
    current st2 = current st /\
    procs st2 = after_round_trip pol c (procs st).
Proof.
  intros Hc Hr. pose proof (lookup_lt_Some _ _ _ Hr) as Hlt.
  assert (<[rid := mkResource None []]>
            (<[rid := mkResource (Some c) []]> (resources st)) = resources st)
    as Hback by (rewrite list_insert_insert_eq; now apply list_insert_id).
  assert (<[rid := mkResource (Some c) []]> (resources st) !! rid
          = Some (mkResource (Some c) [])) as Hmid
    by now apply list_lookup_insert_eq.
  assert (fcfs_acquire rid st
          = Ok true (with_resource rid (mkResource (Some c) []) st)) as Hacq
    by (unfold fcfs_acquire; now rewrite Hr, Hc).
  assert (pip_acquire rid st
          = Ok true (with_resource rid (mkResource (Some c) []) st)) as Hacq'
    by (unfold pip_acquire; now rewrite Hr, Hc).
  assert (exists st2,
            fcfs_release rid (with_resource rid (mkResource (Some c) []) st)
            = Ok tt st2 /\
            resources st2 = resources st /\ readyqueue st2 = readyqueue st /\
            current st2 = current st /\ procs st2 = procs st) as Hrel.
  { unfold fcfs_release. cbn [resources with_resource current]. rewrite Hmid.
    cbn [owner waitqueue]. rewrite Hc.
    destruct (decide (Some c = Some c)) as [_|Hne]; [|contradiction].
    eexists. split; [reflexivity|]. cbn. rewrite Hback. now rewrite Hc. }
  assert (exists st2,
            pip_release rid (with_resource rid (mkResource (Some c) []) st)
            = Ok tt st2 /\
            resources st2 = resources st /\ readyqueue st2 = readyqueue st /\
            current st2 = current st /\
            procs st2 = upd_proc c (fun P => set_prio (prio_orig P) P) (procs st))
    as Hrel'.
  { unfold pip_release. cbn [resources with_resource current]. rewrite Hmid.
    cbn [owner waitqueue]. rewrite Hc.
    destruct (decide (Some c = Some c)) as [_|Hne]; [|contradiction].
    eexists. split; [reflexivity|]. cbn. rewrite Hback. now rewrite Hc. }
  destruct pol; cbn [acquire_of release_of after_round_trip];
    rewrite ?prio_acquire_fcfs, ?prio_release_fcfs;
    first [ destruct Hrel as (st2 & H1 & H2 & H3 & H4 & H5);
            exists (with_resource rid (mkResource (Some c) []) st), st2;
            rewrite Hacq; now repeat split
          | destruct Hrel' as (st2 & H1 & H2 & H3 & H4 & H5);
            exists (with_resource rid (mkResource (Some c) []) st), st2;
            rewrite Hacq'; now repeat split ].
Qed.

(** On [calm_state] the inheritance protocol brings the priority of the
    caller from 7 back to its base priority 2. *)
Lemma acquire_release_round_trip_witness :
  exists st1 st2,
    pip_acquire 0 calm_state = Ok true st1 /\
    pip_release 0 st1 = Ok tt st2 /\
    resources st2 = resources calm_state /\
    readyqueue st2 = [1] /\
    prio (procs st2 0) = 2%Z.
Proof.
  destruct (acquire_release_round_trip PIP 0 calm_state 0 eq_refl eq_refl)
    as (st1 & st2 & H1 & _ & H3 & H4 & H5 & _ & H7).
  exists st1, st2. repeat split; try assumption.
  rewrite H7. reflexivity.
Defined.

(** ** Waiters and their status *)

Lemma list_del_init_NoDup n q : NoDup q -> n ∉ list_del_init n q.
Proof.
  induction q as [|x q IH]; intros Hnd; cbn; [apply not_elem_of_nil|].
  apply NoDup_cons in Hnd as [Hx Hnd].
  destruct (Nat.eqb_spec x n) as [->|Hne]; [exact Hx|].
  apply not_elem_of_cons. split; [congruence | now apply IH].
Qed.

Lemma waiters_wait_release rid st st' :
  NoDup (queued st) -> waiters_wait st ->
  release_effect rid st st' -> waiters_wait st'.
Proof.
  intros Hnd Hw (r & Hr & _ & _ & Heff).
  destruct (queued_NoDup_unfold st Hnd) as (_ & Hq2 & Hq3).
  pose proof (lookup_lt_Some _ _ _ Hr) as Hlt.
  destruct Heff as [(Hq & _ & Hres & Hst)|(w & Hin & _ & _ & _ & Hres & Hst)];
    intros i r' p Hi Hp; rewrite Hres in Hi.
  - rewrite Hst. destruct (Nat.eq_dec rid i) as [<-|Hne].
    + rewrite list_lookup_insert_eq in Hi by exact Hlt.
      injection Hi as <-. inversion Hp.
    + rewrite list_lookup_insert_ne in Hi by exact Hne. now apply (Hw i r' p).
  - destruct (Nat.eq_dec rid i) as [<-|Hne].
    + rewrite list_lookup_insert_eq in Hi by exact Hlt.
      injection Hi as <-. cbn in Hp.
      assert (p <> w) as Hpw.
      { intros ->. revert Hp. apply list_del_init_NoDup.
        now apply (Hq2 rid r Hr). }
      rewrite (Hst p Hpw). apply (Hw rid r p Hr).
      now apply list_del_init_subset in Hp.
    + rewrite list_lookup_insert_ne in Hi by exact Hne.
      assert (p <> w) as Hpw.
      { intros ->. now apply (Hq3 rid i r r' Hne Hr Hi w Hin). }
      rewrite (Hst p Hpw). now apply (Hw i r' p).
Qed.

Lemma waiters_wait_acquire rid st b st' :
  waiters_wait st -> acquire_effect rid st b st' -> waiters_wait st'.
Proof.
  intros Hw (r & Hr & _ & _ & _ & Hother & Hgrant & Hdeny) i r' p Hi Hp.
  destruct b.
  - destruct (Hgrant eq_refl) as [-> Hrid].
    destruct (Nat.eq_dec i rid) as [->|Hne].
    + rewrite Hrid in Hi. injection Hi as <-. now apply (Hw rid r p).
    + rewrite (Hother i Hne) in Hi. now apply (Hw i r' p).
  - destruct (Hdeny eq_refl) as (c & _ & Hrid & Hc & Hst).
    destruct (Nat.eq_dec p c) as [->|Hpc]; [exact Hc|].
    rewrite (Hst p Hpc).
    destruct (Nat.eq_dec i rid) as [->|Hne].
    + rewrite Hrid in Hi. injection Hi as <-. cbn in Hp.
      apply elem_of_app in Hp as [Hp|Hp].
      * now apply (Hw rid r p).
      * apply list_elem_of_singleton in Hp. contradiction.
    + rewrite (Hother i Hne) in Hi. now apply (Hw i r' p).
Qed.

(** X14: "every process on a wait queue is in WAIT status" is an
    invariant of the callbacks.  From a state where it holds and where no
    process is linked twice, every callback of every policy that returns
    leaves a state where it holds. *)
Theorem waiters_stay_waiting pol c st rep st' :
  NoDup (queued st) ->
  waiters_wait st ->
  run pol c st = Ok rep st' ->
  waiters_wait st'.
Proof.
  intros Hnd Hw Hrun. destruct c as [|rid|rid]; cbn [run] in Hrun.
  - pose proof (schedule_of_shape pol st) as Hs.
    destruct (schedule_of pol st) as [ret s|e]; [|discriminate].
    cbn in Hrun. injection Hrun as <- <-.
    destruct (sched_shape_frame st ret s Hs) as (Hp & Hr & _).
    unfold waiters_wait. rewrite Hp, Hr. exact Hw.
  - destruct (acquire_of pol rid st) as [b s|e] eqn:E; [|discriminate].
    cbn in Hrun. injection Hrun as <- <-.
    apply (waiters_wait_acquire rid st b s Hw).
    destruct pol; cbn [acquire_of] in E; rewrite ?prio_acquire_fcfs in E;
      first [now apply fcfs_acquire_effect | now apply pip_acquire_effect].
  - destruct (release_of pol rid st) as [[] s|e] eqn:E; [|discriminate].
    cbn in Hrun. injection Hrun as <- <-.
    apply (waiters_wait_release rid st s Hnd Hw).
    destruct pol; cbn [release_of] in E; rewrite ?prio_release_fcfs in E;
      first [now apply fcfs_release_effect | now apply pip_release_effect].
Qed.

Lemma contended_waiters_wait : waiters_wait contended_state.
Proof.
  intros i r p Hi Hp. destruct i as [|i].
  - injection Hi as <-. cbn in Hp.
    apply elem_of_cons in Hp as [->|Hp]; [reflexivity|].
    apply list_elem_of_singleton in Hp as ->. reflexivity.
  - change (replicate 31 (mkResource None []) !! i = Some r) in Hi.
    apply list_elem_of_lookup_2 in Hi.
    apply elem_of_replicate in Hi as [-> _]. inversion Hp.
Qed.

(** The invariant through the inheritance release on
    [contended_state]. *)
Lemma waiters_stay_waiting_witness :
  exists st', pip_release 0 contended_state = Ok tt st' /\ waiters_wait st'.
Proof.
  eexists. split; [reflexivity|].
  eapply (waiters_stay_waiting PIP (Release 0) contended_state Released).
  - apply (bool_decide_unpack _). vm_compute. exact I.
  - exact contended_waiters_wait.
  - reflexivity.
Defined.

(** X15: the assertion on the waiter's status cannot fire where the
    invariant holds.  In a state where every process on a wait queue is in
    WAIT status, the release of a resource by its owner, the current
    process, returns under every policy. *)
Theorem owner_release_returns pol rid st r c :
  waiters_wait st ->
  current st = Some c ->
  resources st !! rid = Some r ->
  owner r = Some c ->
  exists st', release_of pol rid st = Ok tt st'.
Proof.
  intros Hw Hc Hr Ho.
  assert (exists st', fcfs_release rid st = Ok tt st') as Hfcfs.
  { unfold fcfs_release, wake. rewrite Hr.
    destruct (decide (owner r = current st)) as [_|Hne]; [|congruence].
    destruct (waitqueue r) as [|w ws] eqn:Hq; [eauto|].
    assert (is_wait (status (procs st w)) = true) as ->; [|eauto].
    apply is_wait_true, (Hw rid r w Hr). rewrite Hq. apply list_elem_of_here. }
  destruct pol; cbn [release_of]; rewrite ?prio_release_fcfs; try exact Hfcfs.
  destruct (pip_release_restores rid st r c Hr Ho Hc (fun w => Hw rid r w Hr))
    as (st' & H & _).
  eauto.
Qed.

(** The owner of resource 0 in [contended_state] under the Priority
    policy. *)
Lemma owner_release_returns_witness :
  exists st', prio_release 0 contended_state = Ok tt st'.
Proof.
  apply (owner_release_returns PRIO 0 contended_state
           (mkResource (Some 0) [1; 2]) 0 contended_waiters_wait);
    reflexivity.
Defined.

(** X16: where [prio_release] wakes the head, [pip_release] does wake by
    priority.  Called by the owner, which is not on the wait queue of its
    own resource, with waiters in WAIT status, it wakes the first waiter of
    maximal current priority: that waiter becomes READY and joins the tail
    of the ready queue, and the waiters before and after it stay on the
    wait queue in their order. *)
Theorem pip_release_wakes_first_max rid st r o :
  resources st !! rid = Some r ->
  owner r = Some o ->
  current st = Some o ->
  o ∉ waitqueue r ->
  (forall w, w ∈ waitqueue r -> status (procs st w) = PROCESS_WAIT) ->
  waitqueue r <> [] ->
  exists l1 n l2 st',
    waitqueue r = l1 ++ n :: l2 /\
    (forall x, x ∈ l1 -> (prio (procs st x) < prio (procs st n))%Z) /\
    (forall x, x ∈ l2 -> (prio (procs st x) <= prio (procs st n))%Z) /\
    pip_release rid st = Ok tt st' /\
    readyqueue st' = readyqueue st ++ [n] /\
    resources st' = <[rid := mkResource None (l1 ++ l2)]> (resources st) /\
    status (procs st' n) = PROCESS_READY.
Proof.
  intros Hr Ho Hc Hout Hw Hne. unfold pip_release. rewrite Hr.
  destruct (decide (owner r = current st)) as [_|Hx]; [|congruence].
  rewrite Ho.
  set (h1 := upd_proc o (fun P => set_prio (prio_orig P) P) (procs st)).
  assert (forall x, x ∈ waitqueue r -> prio (h1 x) = prio (procs st x)) as Hkey.
  { intros x Hx. unfold h1. apply f_equal, upd_proc_other. congruence. }
  revert Hkey Hout Hw. destruct (waitqueue r) as [|a l] eqn:Hq; [contradiction|].
  intros Hkey Hout Hw.
  destruct (scan_max_entry (fun p => prio (h1 p)) a l) as (n & Hn).
  pose proof (scan_max_first _ _ _ _ Hn) as (l1 & l2 & Eq & Hlt & Hle).
  assert (n ∉ l1) as Hn1 by (intros Hin; specialize (Hlt n Hin); lia).
  assert (forall x, x ∈ l1 ++ n :: l2 -> prio (h1 x) = prio (procs st x)) as Hkey'
    by (intros x Hx; apply Hkey; now rewrite Eq).
  assert (is_wait (status (h1 n)) = true) as Hwait.
  { apply is_wait_true. unfold h1. rewrite (upd_proc_field status) by reflexivity.
    apply Hw. rewrite Eq. apply elem_of_app. right. apply list_elem_of_here. }
  exists l1, n, l2. eexists. split; [exact Eq|].
  split.
  { intros x Hx. specialize (Hlt x Hx). cbn beta in Hlt.
    rewrite !Hkey' in Hlt; [exact Hlt | |];
      apply elem_of_app; [right; apply list_elem_of_here | now left]. }
  split.
  { intros x Hx. specialize (Hle x Hx). cbn beta in Hle.
    rewrite !Hkey' in Hle; [exact Hle | |]; apply elem_of_app; right;
      [apply list_elem_of_here | now apply list_elem_of_further]. }
  split; [rewrite Hn, Hwait, count_entries_self; reflexivity|].
  cbn [readyqueue resources procs with_readyqueue with_resource with_procs
       list_add_tail].
  split; [reflexivity|]. split.
  - rewrite Eq. now rewrite list_del_init_middle.
  - now rewrite upd_proc_same.
Qed.

(** On [contended_state] the inheritance release wakes process 2, of
    priority 5, and leaves process 1, the head, waiting. *)
Lemma pip_release_wakes_first_max_witness :
  exists st',
    pip_release 0 contended_state = Ok tt st' /\
    readyqueue st' = [2] /\
    resources st' !! 0 = Some (mkResource None [1]).
Proof.
  destruct (pip_release_wakes_first_max 0 contended_state
              (mkResource (Some 0) [1; 2]) 0 eq_refl eq_refl eq_refl)
    as (l1 & n & l2 & st' & Eq & _ & _ & Hrel & Hrq & Hres & _).
  - apply (bool_decide_unpack _). vm_compute. exact I.
  - intros w Hw. apply (contended_waiters_wait 0 _ w eq_refl Hw).
  - discriminate.
  - exists st'. split; [exact Hrel|].
    assert (pip_release 0 contended_state
            = Ok tt (mkState (Some 0) [2]
                       (<[0 := mkResource None [1]]> (resources contended_state))
                       (upd_proc 2 (set_status PROCESS_READY)
                          (upd_proc 0 (fun P => set_prio (prio_orig P) P)
                             contended_procs)))) as Hval by reflexivity.
    rewrite Hval in Hrel. injection Hrel as <-. split; reflexivity.
Defined.

(** X17: a blocked requester is woken by the owner's release, without
    the resource.  When the current process asks for a resource that has
    an owner and no waiter, the acquire is denied under every policy; once
    the owner is the current process again its release returns, the
    requester is READY at the tail of the ready queue, and the resource is
    free with an empty wait queue: the requester has to acquire it
    again. *)
Theorem blocked_requester_is_woken pol rid st o c :
  current st = Some c ->
  resources st !! rid = Some (mkResource (Some o) []) ->
  exists st1 st2,
    acquire_of pol rid st = Ok false st1 /\
    status (procs st1 c) = PROCESS_WAIT /\
    release_of pol rid (with_current (Some o) st1) = Ok tt st2 /\
    readyqueue st2 = readyqueue st ++ [c] /\
    status (procs st2 c) = PROCESS_READY /\
    resources st2 = <[rid := mkResource None []]> (resources st).
Proof.
  intros Hc Hr. pose proof (lookup_lt_Some _ _ _ Hr) as Hlt.
  assert (forall x, <[rid := x]> (resources st) !! rid = Some x) as Hmid
    by (intros x; now apply list_lookup_insert_eq).
  assert (forall x y, <[rid := x]> (<[rid := y]> (resources st))
                      = <[rid := x]> (resources st)) as Hback
    by (intros x y; apply list_insert_insert_eq).
  destruct pol; cbn [acquire_of release_of].
  1-5: unfold fcfs_acquire, prio_acquire; rewrite Hr, Hc; cbn [owner waitqueue];
       eexists; eexists; (split; [reflexivity|]);
       (split; [cbn; now rewrite upd_proc_same|]);
       unfold fcfs_release, prio_release, wake;
       cbn [resources with_resource with_procs with_current current procs
            readyqueue list_add_tail app];
       rewrite (Hmid (mkResource (Some o) [c])); cbn [owner waitqueue];
       (destruct (decide (Some o = Some o)) as [_|Hne]; [|contradiction]);
       rewrite upd_proc_same; cbn [status set_status is_wait];
       (split; [reflexivity|]); cbn;
       rewrite Nat.eqb_refl, upd_proc_same, list_insert_insert_eq; now repeat split.
  unfold pip_acquire. rewrite Hr, Hc. cbn [owner waitqueue].
  set (h1 := upd_proc c (set_status PROCESS_WAIT) (procs st)).
  set (h2 := if (prio (h1 o) <? prio (h1 c))%Z
             then upd_proc o (set_prio (prio (h1 c))) h1 else h1).
  assert (status (h2 c) = PROCESS_WAIT) as Hs2.
  { unfold h2. destruct (_ <? _)%Z;
      rewrite ?(upd_proc_field status) by reflexivity;
      unfold h1; now rewrite upd_proc_same. }
  eexists. eexists. split; [reflexivity|]. split; [exact Hs2|].
  unfold pip_release.
  cbn [resources with_resource with_procs with_current current procs
       readyqueue list_add_tail app].
  rewrite (Hmid (mkResource (Some o) [c])). cbn [owner waitqueue].
  destruct (decide (Some o = Some o)) as [_|Hne]; [|contradiction].
  cbn [scan_max scan_eq fold_left]. rewrite Z.ltb_irrefl, Z.eqb_refl.
  rewrite (upd_proc_field status) by reflexivity. rewrite Hs2.
  cbn [is_wait]. rewrite count_entries_self.
  split; [reflexivity|]. cbn.
  rewrite Nat.eqb_refl, upd_proc_same, list_insert_insert_eq. now repeat split.
Qed.

(** Under the inheritance protocol on [inversion_state]: W (process 1)
    is denied resource 0, then woken by the release of O (process 0). *)
Lemma blocked_requester_is_woken_witness :
  exists st1 st2,
    pip_acquire 0 inversion_state = Ok false st1 /\
    pip_release 0 (with_current (Some 0) st1) = Ok tt st2 /\
    readyqueue st2 = [0; 1] /\
    status (procs st2 1) = PROCESS_READY.
Proof.
  destruct (blocked_requester_is_woken PIP 0 inversion_state 0 1 eq_refl eq_refl)
    as (st1 & st2 & H1 & _ & H3 & H4 & H5 & _).
  exists st1, st2. repeat split; assumption.
Defined.

(** ** A round of Round-Robin *)

Lemma ticks_snoc pol n : forall st ds st1 d st2,
  ticks pol n st = Ok ds st1 ->
  tick pol st1 = Ok d st2 ->
  ticks pol (S n) st = Ok (ds ++ [d]) st2.
Proof.
  induction n as [|n IH]; intros st ds st1 d st2 Hn Ht.
  - cbn in Hn. injection Hn as <- <-. cbn. now rewrite Ht.
  - cbn [ticks] in Hn. destruct (tick pol st) as [d0 s0|] eqn:E0; [|discriminate].
    destruct (ticks pol n s0) as [ds0 s1|] eqn:E1; [|discriminate].
    injection Hn as <- <-.
    change (ticks pol (S (S n)) st) with
      (match tick pol st with
       | Ok d st' => match ticks pol (S n) st' with
                     | Ok ds st'' => Ok (d :: ds) st''
                     | Fault e => Fault e
                     end
       | Fault e => Fault e
       end).
    rewrite E0. now rewrite (IH s0 ds0 s1 d st2 E1 Ht).
Qed.

(** One tick of Round-Robin with a running, unfinished process and a
    non-empty ready queue. *)
Lemma rr_tick_rotate st x a q :
  current st = Some x ->
  status (procs st x) <> PROCESS_WAIT ->
  age (procs st x) <> lifespan (procs st x) ->
  readyqueue st = a :: q ->
  tick RR st
  = Ok (Some a)
       (with_procs (upd_proc a (fun P => set_age (wrap (age P + 1)) P) (procs st))
          (with_current (Some a) (with_readyqueue (q ++ [x]) st))).
Proof.
  intros Hc Hs Ha Hq. unfold tick. cbn [schedule_of]. unfold rr_schedule.
  rewrite Hc. apply is_wait_false in Hs. rewrite Hs. cbn [orb].
  apply Z.eqb_neq in Ha. rewrite Ha, Hq.
  cbn [readyqueue with_readyqueue list_add_tail app detach].
  now rewrite list_del_init_head.
Qed.

Lemma last_cons_default (A : list pid) : forall a x,
  List.last (a :: A) x = List.last A a.
Proof.
  induction A as [|b A IH]; intros a x; [reflexivity|].
  change (List.last (a :: b :: A) x) with (List.last (b :: A) x).
  now rewrite (IH b x), (IH b a).
Qed.

Lemma can_rotate_other st st' p :
  procs st' p = procs st p -> can_rotate st p -> can_rotate st' p.
Proof. unfold can_rotate. now intros ->. Qed.

(** Dispatching the front part [A] of the ready queue, one process per
    tick. *)
Lemma rr_rotate A : forall st x B,
  current st = Some x ->
  readyqueue st = A ++ B ->
  NoDup (x :: A) ->
  status (procs st x) <> PROCESS_WAIT ->
  age (procs st x) <> lifespan (procs st x) ->
  (forall p, p ∈ A -> can_rotate st p) ->
  exists st',
    ticks RR (length A) st = Ok (Some <$> A) st' /\
    current st' = Some (List.last A x) /\
    readyqueue st' = B ++ removelast (x :: A) /\
    resources st' = resources st /\
    (forall p, p ∈ A ->
       age (procs st' p) = (age (procs st p) + 1)%Z /\
       lifespan (procs st' p) = lifespan (procs st p) /\
       status (procs st' p) = status (procs st p)) /\
    (forall p, p ∉ A -> procs st' p = procs st p).
Proof.
  induction A as [|a A IH]; intros st x B Hc Hq Hnd Hs Ha Hall.
  - exists st. cbn [length ticks fmap list_fmap List.last removelast].
    split; [reflexivity|]. split; [exact Hc|].
    split; [now rewrite app_nil_r|]. split; [reflexivity|].
    split; [intros p Hp; inversion Hp | reflexivity].
  - assert (can_rotate st a) as (Hsa & H0a & Hla & Hma)
      by (apply Hall, list_elem_of_here).
    apply NoDup_cons in Hnd as [Hx Hnd].
    pose proof Hnd as Hnd'. apply NoDup_cons in Hnd' as [HaA HndA].
    apply not_elem_of_cons in Hx as [Hxa HxA].
    pose (st1 := with_procs
                   (upd_proc a (fun P => set_age (wrap (age P + 1)) P) (procs st))
                   (with_current (Some a)
                      (with_readyqueue ((A ++ B) ++ [x]) st))).
    assert (tick RR st = Ok (Some a) st1) as Htick
      by apply (rr_tick_rotate st x a (A ++ B) Hc Hs Ha Hq).
    assert (procs st1 a = set_age (age (procs st a) + 1) (procs st a)) as Hpa.
    { unfold st1. cbn. rewrite upd_proc_same. unfold wrap.
      rewrite Z.mod_small by lia. reflexivity. }
    assert (forall p, p <> a -> procs st1 p = procs st p) as Hpo
      by (intros p Hp; unfold st1; cbn; now rewrite upd_proc_other).
    destruct (IH st1 a (B ++ [x])) as (st' & Ht & H1 & H2 & H3 & H4 & H5).
    + reflexivity.
    + unfold st1. cbn. now rewrite <- app_assoc.
    + exact Hnd.
    + now rewrite Hpa.
    + rewrite Hpa. cbn. lia.
    + intros p Hp. apply (can_rotate_other st).
      * apply Hpo. intros ->. contradiction.
      * apply Hall. now apply list_elem_of_further.
    + exists st'. cbn [length ticks fmap list_fmap]. rewrite Htick, Ht.
      split; [reflexivity|]. split.
      { rewrite H1. now rewrite last_cons_default. }
      split.
      { rewrite H2. rewrite <- app_assoc. cbn [app]. reflexivity. }
      split; [rewrite H3; reflexivity|]. split.
      * intros p Hp. apply elem_of_cons in Hp as [->|Hp].
        -- rewrite (H5 a HaA), Hpa. cbn. repeat split.
        -- destruct (H4 p Hp) as (E1 & E2 & E3).
           assert (p <> a) as Hne by (intros ->; contradiction).
           rewrite E1, E2, E3, (Hpo p Hne). repeat split.
      * intros p Hp. apply not_elem_of_cons in Hp as [Hpa' HpA].
        now rewrite (H5 p HpA), (Hpo p Hpa').
Qed.

(** X18: Round-Robin is fair.  Take a running process [x] and a ready
    queue [A], all distinct, each not blocked and with at least two ticks
    left.  Over the next [length A + 1] ticks of the driver of the spec the
    processes of [A] are dispatched in queue order, one tick each, and then
    [x]; at the end [x] is the current process again, the ready queue is
    [A] again, each of these processes has aged by exactly one tick, and
    no other process and no resource has changed. *)
Theorem rr_round st x A :
  current st = Some x ->
  readyqueue st = A ->
  NoDup (x :: A) ->
  (forall p, p ∈ x :: A -> can_rotate st p) ->
  exists st',
    ticks RR (S (length A)) st = Ok (Some <$> (A ++ [x])) st' /\
    current st' = Some x /\
    readyqueue st' = A /\
    resources st' = resources st /\
    (forall p, p ∈ x :: A ->
       age (procs st' p) = (age (procs st p) + 1)%Z) /\
    (forall p, p ∉ x :: A -> procs st' p = procs st p).
Proof.
  intros Hc Hq Hnd Hall.
  assert (can_rotate st x) as (Hsx & H0x & Hlx & Hmx)
    by (apply Hall, list_elem_of_here).
  pose proof Hnd as Hnd'. apply NoDup_cons in Hnd' as [HxA HndA].
  destruct (rr_rotate A st x []) as (st1 & Ht & H1 & H2 & H3 & H4 & H5);
    try assumption.
  - now rewrite app_nil_r.
  - lia.
  - intros p Hp. apply Hall. now apply list_elem_of_further.
  - cbn [app] in H2.
    assert (procs st1 x = procs st x) as Hpx by now apply H5.
    destruct A as [|a A].
    + (* nothing is ready: the running process goes on alone *)
      cbn in Ht. injection Ht as <-. cbn [length app fmap list_fmap].
      assert (tick RR st
              = Ok (Some x)
                   (with_procs
                      (upd_proc x (fun P => set_age (wrap (age P + 1)) P) (procs st))
                      (with_current (Some x) st))) as Htick.
      { unfold tick. cbn [schedule_of]. unfold rr_schedule. rewrite Hc.
        apply is_wait_false in Hsx. rewrite Hsx. cbn [orb].
        assert ((age (procs st x) =? lifespan (procs st x))%Z = false) as ->
          by (apply Z.eqb_neq; lia).
        rewrite Hq.
        assert ((age (procs st x) <? lifespan (procs st x))%Z = true) as ->
          by (apply Z.ltb_lt; lia).
        reflexivity. }
      eexists. cbn [ticks]. rewrite Htick. split; [reflexivity|]. cbn.
      split; [reflexivity|]. split; [exact Hq|]. split; [reflexivity|]. split.
      * intros p Hp. apply list_elem_of_singleton in Hp as ->.
        rewrite upd_proc_same. cbn. unfold wrap. apply Z.mod_small. lia.
      * intros p Hp. apply not_elem_of_cons in Hp as [Hp _].
        now rewrite upd_proc_other.
    + (* the last process of the queue runs; [x] heads the ready queue *)
      set (z := List.last (a :: A) x) in *.
      assert (z ∈ a :: A) as Hz.
      { unfold z. clear. revert a. induction A as [|b A IH]; intros a.
        - apply list_elem_of_here.
        - change (List.last (a :: b :: A) x) with (List.last (b :: A) x).
          apply list_elem_of_further, IH. }
      assert (removelast (x :: a :: A) = x :: removelast (a :: A)) as Hrl
        by reflexivity.
      rewrite Hrl in H2.
      assert (removelast (a :: A) ++ [z] = a :: A) as Hlast.
      { unfold z. symmetry. apply app_removelast_last. discriminate. }
      destruct (H4 z Hz) as (Ez1 & Ez2 & Ez3).
      destruct (Hall z (list_elem_of_further _ _ _ Hz)) as (Hsz & H0z & Hlz & Hmz).
      assert (tick RR st1
              = Ok (Some x)
                   (with_procs
                      (upd_proc x (fun P => set_age (wrap (age P + 1)) P)
                         (procs st1))
                      (with_current (Some x)
                         (with_readyqueue (removelast (a :: A) ++ [z]) st1))))
        as Htick.
      { apply (rr_tick_rotate st1 z x (removelast (a :: A)) H1).
        - now rewrite Ez3.
        - rewrite Ez1, Ez2. lia.
        - exact H2. }
      eexists. split.
      { rewrite (ticks_snoc RR _ _ _ _ _ _ Ht Htick).
        now rewrite fmap_app. }
      cbn [current readyqueue resources procs with_procs with_current
           with_readyqueue].
      split; [reflexivity|]. split; [exact Hlast|].
      split; [exact H3|]. split.
      * intros p Hp. apply elem_of_cons in Hp as [->|Hp].
        -- rewrite upd_proc_same, Hpx. cbn. unfold wrap.
           apply Z.mod_small. lia.
        -- assert (p <> x) as Hne by (intros ->; contradiction).
           rewrite upd_proc_other by exact Hne. now apply H4.
      * intros p Hp. apply not_elem_of_cons in Hp as [Hpx' HpA].
        rewrite upd_proc_other by exact Hpx'. now apply H5.
Qed.

(** One round on [carousel_state]: processes 1 and 2, then process 0. *)
Lemma rr_round_witness :
  exists st',
    ticks RR 3 carousel_state = Ok [Some 1; Some 2; Some 0] st' /\
    current st' = Some 0 /\
    readyqueue st' = [1; 2].
Proof.
  destruct (rr_round carousel_state 0 [1; 2] eq_refl eq_refl)
    as (st' & Ht & Hc & Hq & _).
  - apply (bool_decide_unpack _). vm_compute. exact I.
  - intros p Hp. unfold can_rotate.
    apply elem_of_cons in Hp as [->|Hp];
      [|apply elem_of_cons in Hp as [->|Hp];
        [|apply list_elem_of_singleton in Hp as ->]];
      (split; [discriminate|]); vm_compute; repeat split; discriminate.
  - exists st'. repeat split; assumption.
Defined.

(** ** Running to completion under the preemptive policies *)

Lemma priority_keeps_strict field st c :
  current st = Some c ->
  status (procs st c) <> PROCESS_WAIT ->
  (age (procs st c) < lifespan (procs st c))%Z ->
  (forall p, p ∈ readyqueue st ->
     (field (procs st p) < field (procs st c))%Z) ->
  priority_schedule field st = Ok (Some c) st.
Proof.
  intros Hc Hs Hlt Hall.
  destruct (priority_schedule_rule field st c Hc Hs Hlt)
    as [[_ H]|(l1 & n & l2 & Eq & Hge & _)]; [exact H|].
  exfalso. cbn beta in Hge.
  assert (n ∈ readyqueue st) as Hn
    by (rewrite Eq; apply elem_of_app; right; apply list_elem_of_here).
  specialize (Hall n Hn). lia.
Qed.

Lemma priority_keeps_ticks pol field n st c :
  schedule_of pol = priority_schedule field ->
  (forall z P, field (set_age z P) = field P) ->
  current st = Some c ->
  status (procs st c) <> PROCESS_WAIT ->
  (0 <= age (procs st c))%Z ->
  (age (procs st c) + Z.of_nat n <= lifespan (procs st c))%Z ->
  (lifespan (procs st c) < 2 ^ 32)%Z ->
  (forall p, p ∈ readyqueue st ->
     (field (procs st p) < field (procs st c))%Z) ->
  exists st',
    ticks pol n st = Ok (replicate n (Some c)) st' /\
    current st' = Some c /\
    readyqueue st' = readyqueue st /\
    age (procs st' c) = (age (procs st c) + Z.of_nat n)%Z.
Proof.
  intros Hpol Hfield Hc Hs H0 Hn Hmax Hall.
  destruct (keep_ticks_when pol
              (fun s d => forall p, p ∈ readyqueue s ->
                            (field (procs s p) < field (procs s d))%Z))
    with (n := n) (st := st) (c := c)
    as (st' & Ht & H1 & H2 & _ & H4 & _); try assumption.
  - intros s d HI Hd Hsd Hage _. split.
    + rewrite Hpol. apply (priority_keeps_strict field s d Hd Hsd); [lia | exact HI].
    + intros p Hp. unfold aged. cbn.
      rewrite !(upd_proc_field field) by (intros P; apply Hfield).
      now apply HI.
  - exists st'. repeat split; assumption.
Qed.

(** X19: a running process of strictly highest priority is not
    preempted.  Under the Priority scheduler, while every ready process
    has a [prio_orig] strictly below that of the running process, and under
    the Priority-Inheritance scheduler, while every ready process has a
    [prio] strictly below, the running process is the one dispatched at
    each of the next [n] ticks of the driver of the spec, for any [n] up to
    its remaining lifetime, and the ready queue is not touched: the ready
    processes wait for as long as it runs. *)
Theorem strict_priority_keeps_processor n st c :
  current st = Some c ->
  status (procs st c) <> PROCESS_WAIT ->
  (0 <= age (procs st c))%Z ->
  (age (procs st c) + Z.of_nat n <= lifespan (procs st c))%Z ->
  (lifespan (procs st c) < 2 ^ 32)%Z ->
  ((forall p, p ∈ readyqueue st ->
      (prio_orig (procs st p) < prio_orig (procs st c))%Z) ->
   exists st',
     ticks PRIO n st = Ok (replicate n (Some c)) st' /\
     current st' = Some c /\
     readyqueue st' = readyqueue st /\
     age (procs st' c) = (age (procs st c) + Z.of_nat n)%Z) /\
  ((forall p, p ∈ readyqueue st ->
      (prio (procs st p) < prio (procs st c))%Z) ->
   exists st',
     ticks PIP n st = Ok (replicate n (Some c)) st' /\
     current st' = Some c /\
     readyqueue st' = readyqueue st /\
     age (procs st' c) = (age (procs st c) + Z.of_nat n)%Z).
Proof.
  intros Hc Hs H0 Hn Hmax. split; intros Hall.
  - apply (priority_keeps_ticks PRIO prio_orig n st c); try assumption;
      reflexivity.
  - apply (priority_keeps_ticks PIP prio n st c); try assumption;
      reflexivity.
Qed.

(** On [summit_state] process 0, of priority 6, runs its four remaining
    ticks while processes of priority 1 and 4 are ready. *)
Lemma strict_priority_keeps_processor_witness :
  (exists st',
     ticks PRIO 4 summit_state = Ok [Some 0; Some 0; Some 0; Some 0] st' /\
     readyqueue st' = [1; 2]) /\
  (exists st',
     ticks PIP 4 summit_state = Ok [Some 0; Some 0; Some 0; Some 0] st' /\
     readyqueue st' = [1; 2]).
Proof.
  destruct (strict_priority_keeps_processor 4 summit_state 0) as [Hprio Hpip].
  - reflexivity.
  - discriminate.
  - vm_compute. discriminate.
  - vm_compute. discriminate.
  - vm_compute. reflexivity.
  - split.
    + destruct Hprio as (st' & Ht & _ & Hq & _).
      * intros p Hp. apply elem_of_cons in Hp as [->|Hp];
          [|apply list_elem_of_singleton in Hp as ->]; vm_compute; reflexivity.
      * exists st'. split; assumption.
    + destruct Hpip as (st' & Ht & _ & Hq & _).
      * intros p Hp. apply elem_of_cons in Hp as [->|Hp];
          [|apply list_elem_of_singleton in Hp as ->]; vm_compute; reflexivity.
      * exists st'. split; assumption.
Defined.

Lemma srtf_keeps_shortest st c :
  current st = Some c ->
  status (procs st c) <> PROCESS_WAIT ->
  (age (procs st c) < lifespan (procs st c))%Z ->
  (remaining (procs st c) <= sentinel)%Z ->
  (forall p, p ∈ readyqueue st ->
     (remaining (procs st c) <= remaining (procs st p))%Z) ->
  srtf_schedule st = Ok (Some c) st.
Proof.
  intros Hc Hs Hlt Hb Hall.
  destruct (srtf_schedule_rule st c Hc Hs Hlt (or_introl Hb))
    as [[_ H]|(l1 & n & l2 & Eq & Hless & _)]; [exact H|].
  exfalso. cbn beta in Hless.
  assert (n ∈ readyqueue st) as Hn
    by (rewrite Eq; apply elem_of_app; right; apply list_elem_of_here).
  specialize (Hall n Hn). lia.
Qed.

(** X20: under SRTF a running process whose remaining time is at most
    that of every ready process, and at most 100000, is not preempted: it
    is the one dispatched at each of the next [n] ticks of the driver of
    the spec, for any [n] up to its remaining lifetime, and the ready queue
    is not touched. *)
Theorem shortest_remaining_keeps_processor n st c :
  current st = Some c ->
  status (procs st c) <> PROCESS_WAIT ->
  (0 <= age (procs st c))%Z ->
  (age (procs st c) + Z.of_nat n <= lifespan (procs st c))%Z ->
  (lifespan (procs st c) < 2 ^ 32)%Z ->
  (remaining (procs st c) <= sentinel)%Z ->
  (forall p, p ∈ readyqueue st ->
     (remaining (procs st c) <= remaining (procs st p))%Z) ->
  exists st',
    ticks SRTF n st = Ok (replicate n (Some c)) st' /\
    current st' = Some c /\
    readyqueue st' = readyqueue st /\
    age (procs st' c) = (age (procs st c) + Z.of_nat n)%Z.
Proof.
  intros Hc Hs H0 Hn Hmax Hb Hall.
  destruct (keep_ticks_when SRTF
              (fun s d => (remaining (procs s d) <= sentinel)%Z /\
                          forall p, p ∈ readyqueue s ->
                            (remaining (procs s d) <= remaining (procs s p))%Z))
    with (n := n) (st := st) (c := c)
    as (st' & Ht & H1 & H2 & _ & H4 & _); try assumption.
  - intros s d [HIb HI] Hd Hsd Hage Hmaxd. split.
    + apply (srtf_keeps_shortest s d Hd Hsd); [lia | exact HIb | exact HI].
    + assert (remaining (procs s d) = lifespan (procs s d) - age (procs s d))%Z
        as Hrem by (apply remaining_exact; lia).
      assert (remaining (procs (aged d s) d) = remaining (procs s d) - 1)%Z
        as Hrem'.
      { unfold aged. cbn. rewrite upd_proc_same. rewrite Hrem.
        unfold remaining, wrap. cbn.
        rewrite (Z.mod_small (age (procs s d) + 1)) by lia.
        rewrite Z.mod_small by lia. lia. }
      split; [lia|]. intros p Hp. rewrite Hrem'.
      destruct (Nat.eq_dec p d) as [->|Hne]; [lia|].
      unfold aged. cbn. rewrite upd_proc_other by exact Hne.
      specialize (HI p Hp). lia.
  - split; assumption.
  - exists st'. repeat split; assumption.
Qed.

(** On [homestretch_state] process 0 has two ticks left, as many as the
    shortest ready process: it keeps the processor for both. *)
Lemma shortest_remaining_keeps_processor_witness :
  exists st',
    ticks SRTF 2 homestretch_state = Ok [Some 0; Some 0] st' /\
    readyqueue st' = [1; 2] /\
    age (procs st' 0) = 5%Z.
Proof.
  destruct (shortest_remaining_keeps_processor 2 homestretch_state 0)
    as (st' & Ht & _ & Hq & Ha).
  - reflexivity.
  - discriminate.
  - vm_compute. discriminate.
  - vm_compute. discriminate.
  - vm_compute. reflexivity.
  - vm_compute. discriminate.
  - intros p Hp. apply elem_of_cons in Hp as [->|Hp];
      [|apply list_elem_of_singleton in Hp as ->]; vm_compute; discriminate.
  - exists st'. repeat split; assumption.
Defined.

(** ** Inheritance at work *)

(** X21: inheritance puts the owner ahead of the processes in between.
    When the current process asks for a resource whose owner is ready with
    a strictly lower priority, and every other ready process has a priority
    strictly below the requester's, [pip_acquire] is denied and the next
    [pip_schedule] dispatches the owner, whatever its place on the ready
    queue; the other ready processes keep their order. *)
Theorem inheritance_dispatches_owner rid st r o w :
  current st = Some w ->
  resources st !! rid = Some r ->
  owner r = Some o ->
  o <> w ->
  o ∈ readyqueue st ->
  (prio (procs st o) < prio (procs st w))%Z ->
  (forall p, p ∈ readyqueue st -> p <> o ->
     (prio (procs st p) < prio (procs st w))%Z) ->
  exists st1 st2 l1 l2,
    pip_acquire rid st = Ok false st1 /\
    prio (procs st1 o) = prio (procs st w) /\
    readyqueue st = l1 ++ o :: l2 /\
    pip_schedule st1 = Ok (Some o) st2 /\
    readyqueue st2 = l1 ++ l2.
Proof.
  intros Hc Hr Ho How Hin Hlow Hothers.
  unfold pip_acquire. rewrite Hr, Ho, Hc.
  set (h1 := upd_proc w (set_status PROCESS_WAIT) (procs st)).
  assert (forall q, prio (h1 q) = prio (procs st q)) as Hp1
    by (intros q; unfold h1; now apply upd_proc_field).
  rewrite !Hp1. apply Z.ltb_lt in Hlow as Hlt. rewrite Hlt.
  set (h2 := upd_proc o (set_prio (prio (procs st w))) h1).
  set (st1 := with_resource rid
                (mkResource (Some o) (list_add_tail w (waitqueue r)))
                (with_procs h2 st)).
  assert (prio (h2 o) = prio (procs st w)) as Hko
    by (unfold h2; now rewrite upd_proc_same).
  assert (forall p, p <> o -> prio (h2 p) = prio (procs st p)) as Hkp
    by (intros p Hp; unfold h2; rewrite upd_proc_other by exact Hp; apply Hp1).
  assert (status (h2 w) = PROCESS_WAIT) as Hsw.
  { unfold h2. rewrite (upd_proc_field status) by reflexivity.
    unfold h1. now rewrite upd_proc_same. }
  destruct (readyqueue st) as [|a l] eqn:Erq; [inversion Hin|].
  destruct (pick_first_max st1 (fun p => prio (h2 p)) a l Erq)
    as (l1 & n & l2 & Eq & Hl1 & Hl2 & Hd).
  cbn beta in Hl1, Hl2.
  assert (n = o) as ->.
  { destruct (Nat.eq_dec n o) as [E|Hne]; [exact E|]. exfalso.
    assert (prio (h2 n) < prio (procs st w))%Z as Hn.
    { rewrite (Hkp n Hne). apply Hothers; [|exact Hne].
      change (readyqueue st1) with (readyqueue st) in Eq. rewrite Erq in Eq.
      rewrite Eq. apply elem_of_app. right. apply list_elem_of_here. }
    change (readyqueue st1) with (readyqueue st) in Eq. rewrite Erq in Eq.
    rewrite Eq in Hin. apply elem_of_app in Hin as [Hin|Hin].
    - specialize (Hl1 o Hin). lia.
    - apply elem_of_cons in Hin as [E|Hin]; [congruence|].
      specialize (Hl2 o Hin). lia. }
  exists st1, (with_readyqueue (l1 ++ l2) st1), l1, l2.
  split; [reflexivity|]. split; [exact Hko|].
  split; [change (readyqueue st1) with (readyqueue st) in Eq;
          now rewrite <- Erq|].
  split; [|reflexivity].
  rewrite pip_schedule_unfold. unfold priority_schedule.
  change (current st1) with (current st). rewrite Hc.
  change (procs st1) with h2. apply is_wait_true in Hsw. rewrite Hsw.
  cbn [orb]. change (readyqueue st1) with (readyqueue st) in *.
  rewrite Erq in *. exact Hd.
Qed.

(** On [inversion_ready_state] the owner O, boosted to priority 5, is
    dispatched although M, of priority 3, is ahead of it on the ready
    queue. *)
Lemma inheritance_dispatches_owner_witness :
  exists st1 st2,
    pip_acquire 0 inversion_ready_state = Ok false st1 /\
    pip_schedule st1 = Ok (Some 0) st2 /\
    readyqueue st2 = [1].
Proof.
  destruct (inheritance_dispatches_owner 0 inversion_ready_state
              (mkResource (Some 0) []) 0 2 eq_refl eq_refl eq_refl)
    as (st1 & st2 & l1 & l2 & H1 & _ & Eq & H4 & H5).
  - discriminate.
  - apply (bool_decide_unpack _). vm_compute. exact I.
  - vm_compute. reflexivity.
  - intros p Hp Hne. apply elem_of_cons in Hp as [->|Hp];
      [vm_compute; reflexivity|].
    apply list_elem_of_singleton in Hp. contradiction.
  - exists st1, st2. split; [exact H1|]. split; [exact H4|].
    rewrite H5. destruct l1 as [|x [|y l1]]; cbn in Eq.
    + discriminate.
    + injection Eq as <- <-. reflexivity.
    + injection Eq as _ _ E. now destruct l1.
Defined.
